(** * MotorGroup: a group of geared motors driven as one actuator

    A shallow embedding of [src/hardware/Motors/MotorGroup.cpp] (namespace
    [lemlib]) together with the driver interface declared in
    [include/hardware/Motors/Motor.hpp].

    Conventions of the embedding:
    - [int], [size_t] and [int8_t] values are integers of [Z]; the narrowing
      to [int8_t] performed when a port is stored in [m_motors] is written
      out ([to_int8]);
    - [Angle], [AngularVelocity] and [Number] are quantities of the units
      library, which stores a [double]: they are IEEE 754 binary64 values
      ([PrimFloat.float]), so the error sentinel [INFINITY] is a value and
      [==] is [PrimFloat.eqb];
    - the hardware is an explicit [World] threaded through every call: the
      devices behind the ports, [errno], and the commands issued so far;
      during a call it changes through the operations of the driver only. *)

From Stdlib Require Import ZArith List Bool Lia.
From Stdlib Require Import Floats.PrimFloat Numbers.Cyclic.Int63.Uint63.
Import ListNotations.
Open Scope Z_scope.

(** ** Constants of <climits> and <errno.h> *)

Definition INT_MAX : Z := 2147483647.
Definition EEXIST : Z := 17.
Definition ENODEV : Z := 19.

(** The value an [int] takes when stored in an [int8_t]. *)
Definition to_int8 (z : Z) : Z := (z + 128) mod 256 - 128.

(** Conversion of an [int] to [double] (exact below 2^53). *)
Definition float_of_Z (z : Z) : float :=
  if z <? 0 then PrimFloat.opp (PrimFloat.of_uint63 (Uint63.of_Z (- z)))
  else PrimFloat.of_uint63 (Uint63.of_Z z).

(** ** Enumerations of Motor.hpp *)

Inductive BrakeMode : Type := COAST | BRAKE | HOLD | BrakeMode_INVALID.

Inductive MotorType : Type := V5 | EXP | MotorType_INVALID.

Inductive Cartridge : Type := RED | GREEN | BLUE | Cartridge_INVALID.

(** [static_cast<int>(cartridge)]: RED = 100, GREEN = 200, BLUE = 600 and
    INVALID, which follows BLUE, is 601. *)
Definition Cartridge_to_int (c : Cartridge) : Z :=
  match c with
  | RED => 100
  | GREEN => 200
  | BLUE => 600
  | Cartridge_INVALID => 601
  end.

Definition BrakeMode_is_INVALID (m : BrakeMode) : bool :=
  match m with BrakeMode_INVALID => true | _ => false end.

Definition Cartridge_is_INVALID (c : Cartridge) : bool :=
  match c with Cartridge_INVALID => true | _ => false end.

(** ** The hardware *)

(** The fallible operations of the single-motor driver. *)
Inductive DriverOp : Type :=
| OpMove | OpMoveVelocity | OpBrake
| OpSetBrakeMode | OpGetBrakeMode
| OpIsConnected
| OpGetAngle | OpSetAngle
| OpGetCartridge.

Definition DriverOp_index (op : DriverOp) : Z :=
  match op with
  | OpMove => 0 | OpMoveVelocity => 1 | OpBrake => 2
  | OpSetBrakeMode => 3 | OpGetBrakeMode => 4
  | OpIsConnected => 5
  | OpGetAngle => 6 | OpSetAngle => 7
  | OpGetCartridge => 8
  end.

Definition DriverOp_eqb (a b : DriverOp) : bool :=
  DriverOp_index a =? DriverOp_index b.

(** What is plugged behind a port: whether a motor is installed, which
    driver operations currently fail on it, and the values the motor holds. *)
Record Device : Type := mkDevice {
  installed : bool;
  fails : DriverOp -> bool;
  brakeMode : BrakeMode;
  cartridge : Cartridge;
  angle : float
}.

(** A call of a commanding driver operation, with the port of the motor
    object it was made on and its argument. *)
Inductive Command : Type :=
| CmdMove (port : Z) (percent : float)
| CmdMoveVelocity (port : Z) (velocity : float)
| CmdBrake (port : Z)
| CmdSetBrakeMode (port : Z) (mode : BrakeMode)
| CmdSetAngle (port : Z) (a : float).

Record World : Type := mkWorld {
  devices : Z -> Device;
  errno : Z;
  issued : list Command
}.

(** A motor object of port [p] talks to the device of port [|p|]: the sign
    of a port only encodes reversal. *)
Definition dev (w : World) (port : Z) : Device := devices w (Z.abs port).

Definition set_errno (e : Z) (w : World) : World :=
  mkWorld (devices w) e (issued w).

Definition issue (c : Command) (w : World) : World :=
  mkWorld (devices w) (errno w) (issued w ++ [c]).

Definition set_device (port : Z) (d : Device) (w : World) : World :=
  mkWorld (fun q => if q =? Z.abs port then d else devices w q)
          (errno w) (issued w).

(** ** Computations on the hardware *)

Definition HW (A : Type) : Type := World -> A * World.

Definition ret {A : Type} (a : A) : HW A := fun w => (a, w).

Definition bind {A B : Type} (c : HW A) (k : A -> HW B) : HW B :=
  fun w => let (a, w') := c w in k a w'.

Declare Scope hw_scope.
Delimit Scope hw_scope with hw.
Notation "x <- c ;; k" := (bind c (fun x => k))
  (at level 61, c at next level, right associativity) : hw_scope.
Notation "' pat <- c ;; k" := (bind c (fun x => match x with pat => k end))
  (at level 61, pat pattern, c at next level, right associativity) : hw_scope.
Open Scope hw_scope.

(** ** The single-motor driver *)

Module Motor.
Section Driver.

(** [from_stDeg] of the units library: an angle given in degrees. *)
Variable from_stDeg : float -> float.

(** What the getters report for a device. *)
Definition read_brakeMode (d : Device) : BrakeMode :=
  if fails d OpGetBrakeMode then BrakeMode_INVALID else brakeMode d.

Definition read_cartridge (d : Device) : Cartridge :=
  if fails d OpGetCartridge then Cartridge_INVALID else cartridge d.

Definition read_angle (d : Device) : float :=
  if fails d OpGetAngle then from_stDeg infinity else angle d.

Definition read_isConnected (d : Device) : Z :=
  if fails d OpIsConnected then INT_MAX
  else if installed d then 1 else 0.

(** Modelled from the spec: Motor.cpp is not part of the sources; only the
    declarations of Motor.hpp are.  Every operation follows the contract of
    the header and of the driver section of the specification: a command
    returns 0 on success and INT_MAX on failure, a getter returns its
    sentinel on failure (INVALID, INFINITY, INT_MAX), and a failure sets
    [errno] to ENODEV.  A successful [setBrakeMode] or [setAngle] stores the
    value in the device. *)
Definition command (op : DriverOp) (c : Command) (port : Z)
           (store : Device -> Device) : HW Z :=
  fun w =>
    let w1 := issue c w in
    if fails (dev w port) op then (INT_MAX, set_errno ENODEV w1)
    else (0, set_device port (store (dev w port)) w1).

Definition move (port : Z) (percent : float) : HW Z :=
  command OpMove (CmdMove port percent) port (fun d => d).

Definition moveVelocity (port : Z) (velocity : float) : HW Z :=
  command OpMoveVelocity (CmdMoveVelocity port velocity) port (fun d => d).

Definition brake (port : Z) : HW Z :=
  command OpBrake (CmdBrake port) port (fun d => d).

Definition setBrakeMode (port : Z) (mode : BrakeMode) : HW Z :=
  command OpSetBrakeMode (CmdSetBrakeMode port mode) port
    (fun d => mkDevice (installed d) (fails d) mode (cartridge d) (angle d)).

Definition setAngle (port : Z) (a : float) : HW Z :=
  command OpSetAngle (CmdSetAngle port a) port
    (fun d => mkDevice (installed d) (fails d) (brakeMode d) (cartridge d) a).

Definition getter {A : Type} (op : DriverOp) (read : Device -> A)
           (port : Z) : HW A :=
  fun w =>
    (read (dev w port),
     if fails (dev w port) op then set_errno ENODEV w else w).

Definition getBrakeMode : Z -> HW BrakeMode :=
  getter OpGetBrakeMode read_brakeMode.

Definition getCartridge : Z -> HW Cartridge :=
  getter OpGetCartridge read_cartridge.

Definition getAngle : Z -> HW float :=
  getter OpGetAngle read_angle.

Definition isConnected : Z -> HW Z :=
  getter OpIsConnected read_isConnected.

(** [pros::Motor::is_installed] and [pros::Motor::get_port]. *)
Definition is_installed (port : Z) : HW bool :=
  fun w => (installed (dev w port), w).

Definition get_port (port : Z) : Z := port.

End Driver.
End Motor.

(** ** The group *)

(** [m_motors] pairs a port with the flag "was connected at the last check". *)
Record MotorGroup : Type := mkMotorGroup {
  m_motors : list (Z * bool);
  m_outputVelocity : float
}.

(** Both constructors record every given motor as connected. *)
Definition MotorGroup_new (ports : list Z) (outputVelocity : float) : MotorGroup :=
  mkMotorGroup (map (fun p => (p, true)) ports) outputVelocity.

Section Group.

(** The conversions of the units library used by the group. *)
Variable from_stDeg : float -> float.
Variable from_rpm : Z -> float.

Definition INFINITY_angle : float := from_stDeg infinity.
Definition zero_angle : float := from_stDeg (float_of_Z 0).

Definition is_INFINITY (a : float) : bool := PrimFloat.eqb a INFINITY_angle.

(** *** configureMotor *)

(** First loop: for each tracked pair, the motor object is built from
    [pair.second], the flag, which converts to port 1 or 0. *)
Fixpoint configure_brake (motors : list (Z * bool)) (success : bool) : HW bool :=
  match motors with
  | [] => ret success
  | pr :: rest =>
      let m := if snd pr then 1 else 0 in
      mode <- Motor.getBrakeMode m ;;
      if BrakeMode_is_INVALID mode then configure_brake rest success
      else
        r <- Motor.setBrakeMode m mode ;;
        if r =? 0 then ret success else ret false
  end.

(** Second loop: the connected members other than [port]. *)
Fixpoint configure_peers (motors : list (Z * bool)) (port : Z) : HW (list Z) :=
  match motors with
  | [] => ret []
  | pr :: rest =>
      connected <- Motor.is_installed (fst pr) ;;
      if Z.abs (Motor.get_port (fst pr)) =? Z.abs port
      then configure_peers rest port
      else if negb connected then configure_peers rest port
      else
        ms <- configure_peers rest port ;;
        ret (fst pr :: ms)
  end.

(** Third loop: the sum of the peers' angles and the number of errors. *)
Fixpoint configure_sum (motors : list Z) (tempAngle : float) (errors : Z)
  : HW (float * Z) :=
  match motors with
  | [] => ret (tempAngle, errors)
  | m :: rest =>
      result <- Motor.getAngle from_stDeg m ;;
      if is_INFINITY result then configure_sum rest tempAngle (errors + 1)
      else
        c <- Motor.getCartridge m ;;
        if Cartridge_is_INVALID c then configure_sum rest tempAngle (errors + 1)
        else configure_sum rest (PrimFloat.add tempAngle result) errors
  end.

(** [motors] is the vector [m_motors] at the time of the call.  The motor
    to configure is [pros::Motor(port)], whose constructor takes an
    [int8_t].  Both returns convert a [bool] to [int]: [success = false]
    is 0 and [!success] is 0 or 1. *)
Definition configureMotor (motors : list (Z * bool)) (port : Z) : HW Z :=
  let motor := to_int8 port in
  success <- configure_brake motors true ;;
  c <- Motor.getCartridge motor ;;
  let success := if Cartridge_is_INVALID c then false else success in
  peers <- configure_peers motors port ;;
  ' (tempAngle, errors) <- configure_sum peers zero_angle 0 ;;
  let size := Z.of_nat (length peers) in
  let a := if negb (size =? errors)
           then PrimFloat.div tempAngle (float_of_Z (size - errors))
           else zero_angle in
  result <- Motor.setAngle motor a ;;
  if result =? INT_MAX then ret 0
  else ret (if success then 0 else 1).

(** *** getMotors *)

(** The loop over [m_motors], which it updates in place: [done] are the
    pairs already visited, [todo] the pairs still to visit, so that the
    vector as [configureMotor] sees it is [done ++ todo]. *)
Fixpoint getMotors_loop (done todo : list (Z * bool)) (motors : list Z)
  : HW (list Z * list (Z * bool)) :=
  match todo with
  | [] => ret (motors, done)
  | pr :: rest =>
      connected <- Motor.is_installed (fst pr) ;;
      if negb connected
      then getMotors_loop (done ++ [(fst pr, false)]) rest motors
      else if negb (snd pr)
      then
        r <- configureMotor (done ++ todo) (fst pr) ;;
        if negb (r =? 0)
        then getMotors_loop (done ++ [pr]) rest motors
        else getMotors_loop (done ++ [(fst pr, true)]) rest
                            (motors ++ [fst pr])
      else getMotors_loop (done ++ [(fst pr, true)]) rest
                          (motors ++ [fst pr])
  end.

Definition getMotors (g : MotorGroup) : HW (list Z * MotorGroup) :=
  ' (motors, pairs) <- getMotors_loop [] (m_motors g) [] ;;
  ret (motors, mkMotorGroup pairs (m_outputVelocity g)).

(** *** Commands *)

(** The loop shared by [move], [brake] and [setBrakeMode]: the operation
    is applied to every motor and one success is enough. *)
Fixpoint broadcast (op : Z -> HW Z) (motors : list Z) (success : bool) : HW bool :=
  match motors with
  | [] => ret success
  | motor :: rest =>
      result <- op motor ;;
      broadcast op rest (if result =? 0 then true else success)
  end.

Definition move (g : MotorGroup) (percent : float) : HW (Z * MotorGroup) :=
  ' (motors, g') <- getMotors g ;;
  success <- broadcast (fun m => Motor.move m percent) motors false ;;
  ret (if success then 0 else INT_MAX, g').

Definition brake (g : MotorGroup) : HW (Z * MotorGroup) :=
  ' (motors, g') <- getMotors g ;;
  success <- broadcast Motor.brake motors false ;;
  ret (if success then 0 else INT_MAX, g').

Definition setBrakeMode (g : MotorGroup) (mode : BrakeMode) : HW (Z * MotorGroup) :=
  ' (motors, g') <- getMotors g ;;
  success <- broadcast (fun m => Motor.setBrakeMode m mode) motors false ;;
  ret (if success then 0 else INT_MAX, g').

(** The loop shared by [moveVelocity] and [setAngle]: the value is scaled
    by the gear ratio of each motor, and a motor without a cartridge is
    skipped. *)
Fixpoint broadcast_geared (op : Z -> float -> HW Z) (outputVelocity : float)
         (x : float) (motors : list Z) (success : bool) : HW bool :=
  match motors with
  | [] => ret success
  | motor :: rest =>
      c <- Motor.getCartridge motor ;;
      if Cartridge_is_INVALID c
      then broadcast_geared op outputVelocity x rest success
      else
        let ratio := PrimFloat.div (from_rpm (Cartridge_to_int c)) outputVelocity in
        result <- op motor (PrimFloat.mul x ratio) ;;
        broadcast_geared op outputVelocity x rest
                         (if result =? 0 then true else success)
  end.

Definition moveVelocity (g : MotorGroup) (velocity : float) : HW (Z * MotorGroup) :=
  ' (motors, g') <- getMotors g ;;
  success <- broadcast_geared Motor.moveVelocity (m_outputVelocity g)
               velocity motors false ;;
  ret (if success then 0 else INT_MAX, g').

Definition setAngle (g : MotorGroup) (a : float) : HW (Z * MotorGroup) :=
  ' (motors, g') <- getMotors g ;;
  success <- broadcast_geared Motor.setAngle (m_outputVelocity g)
               a motors false ;;
  ret (if success then 0 else INT_MAX, g').

(** *** Feedback *)

Fixpoint getBrakeModes_loop (motors : list Z) : HW (list BrakeMode) :=
  match motors with
  | [] => ret []
  | motor :: rest =>
      mode <- Motor.getBrakeMode motor ;;
      modes <- getBrakeModes_loop rest ;;
      ret (mode :: modes)
  end.

Definition getBrakeModes (g : MotorGroup) : HW (list BrakeMode * MotorGroup) :=
  ' (motors, g') <- getMotors g ;;
  modes <- getBrakeModes_loop motors ;;
  ret (modes, g').

(** Returns [true], that is 1, at the first motor that reports 1. *)
Fixpoint isConnected_loop (motors : list Z) : HW Z :=
  match motors with
  | [] => ret 0
  | motor :: rest =>
      result <- Motor.isConnected motor ;;
      if result =? 1 then ret 1 else isConnected_loop rest
  end.

Definition isConnected (g : MotorGroup) : HW (Z * MotorGroup) :=
  ' (motors, g') <- getMotors g ;;
  r <- isConnected_loop motors ;;
  ret (r, g').

(** [if (motor.isConnected()) size++]: any non-zero answer counts. *)
Fixpoint getSize_loop (motors : list Z) (size : Z) : HW Z :=
  match motors with
  | [] => ret size
  | motor :: rest =>
      result <- Motor.isConnected motor ;;
      getSize_loop rest (if result =? 0 then size else size + 1)
  end.

Definition getSize (g : MotorGroup) : HW (Z * MotorGroup) :=
  ' (motors, g') <- getMotors g ;;
  size <- getSize_loop motors 0 ;;
  ret (size, g').

Fixpoint getAngle_loop (outputVelocity : float) (motors : list Z)
         (a : float) (errors : Z) : HW (float * Z) :=
  match motors with
  | [] => ret (a, errors)
  | motor :: rest =>
      result <- Motor.getAngle from_stDeg motor ;;
      if is_INFINITY result
      then getAngle_loop outputVelocity rest a (errors + 1)
      else
        c <- Motor.getCartridge motor ;;
        if Cartridge_is_INVALID c
        then getAngle_loop outputVelocity rest a (errors + 1)
        else
          let ratio := PrimFloat.div outputVelocity (from_rpm (Cartridge_to_int c)) in
          getAngle_loop outputVelocity rest
                        (PrimFloat.add a (PrimFloat.mul result ratio)) errors
  end.

(** The last step of [getAngle]: the sum divided by the [int]
    [getSize() - errors]. *)
Definition getAngle_mean (a : float) (divisor : Z) : float :=
  PrimFloat.div a (float_of_Z divisor).

Definition getAngle (g : MotorGroup) : HW (float * MotorGroup) :=
  ' (motors, g1) <- getMotors g ;;
  ' (a, errors) <- getAngle_loop (m_outputVelocity g) motors zero_angle 0 ;;
  if errors =? Z.of_nat (length motors) then ret (INFINITY_angle, g1)
  else
    ' (size, g2) <- getSize g1 ;;
    ret (getAngle_mean a (size - errors), g2).

(** *** Membership *)

Definition same_port (port : Z) (pr : Z * bool) : bool :=
  Z.abs (fst pr) =? Z.abs port.

(** The pair pushed at the end of [m_motors] holds the port as an
    [int8_t]. *)
Definition addMotor (g : MotorGroup) (port : Z) : HW (Z * MotorGroup) :=
  if existsb (same_port port) (m_motors g)
  then fun w => ((INT_MAX, g), set_errno EEXIST w)
  else
    result <- configureMotor (m_motors g) port ;;
    ret (result,
         mkMotorGroup (m_motors g ++ [(to_int8 port, result =? 0)])
                      (m_outputVelocity g)).

(** Every pair of the given port is erased; the iterator stays in place
    after an erasure and advances otherwise. *)
Fixpoint removeMotor_loop (motors : list (Z * bool)) (port : Z) : list (Z * bool) :=
  match motors with
  | [] => []
  | pr :: rest =>
      if same_port port pr then removeMotor_loop rest port
      else pr :: removeMotor_loop rest port
  end.

Definition removeMotor (g : MotorGroup) (port : Z) : MotorGroup :=
  mkMotorGroup (removeMotor_loop (m_motors g) port) (m_outputVelocity g).

End Group.

(** * Properties of the embedding *)

(** ** Running a computation *)

Lemma bind_run {A B : Type} (c : HW A) (k : A -> HW B) (w : World) :
  bind c k w = k (fst (c w)) (snd (c w)).
Proof. unfold bind. destruct (c w); reflexivity. Qed.

Lemma ret_run {A : Type} (a : A) (w : World) : ret a w = (a, w).
Proof. reflexivity. Qed.

(** ** What the driver leaves unchanged *)

(** [same_config w w']: the two worlds agree on which motors are installed,
    on which operations fail and on the cartridges. *)
Definition same_config (w w' : World) : Prop :=
  forall q,
    installed (devices w' q) = installed (devices w q) /\
    fails (devices w' q) = fails (devices w q) /\
    cartridge (devices w' q) = cartridge (devices w q).

(** [same_static w w']: they agree moreover on the brake modes, that is on
    everything but the angles, [errno] and the issued commands. *)
Definition same_static (w w' : World) : Prop :=
  same_config w w' /\
  forall q, brakeMode (devices w' q) = brakeMode (devices w q).

Lemma same_config_refl w : same_config w w.
Proof. intro q; auto. Qed.

Lemma same_config_trans w1 w2 w3 :
  same_config w1 w2 -> same_config w2 w3 -> same_config w1 w3.
Proof.
  intros H12 H23 q. destruct (H12 q) as (a & b & c), (H23 q) as (a' & b' & c').
  repeat split; congruence.
Qed.

Lemma same_config_sym w1 w2 : same_config w1 w2 -> same_config w2 w1.
Proof. intros H q. destruct (H q) as (a & b & c). auto. Qed.

Lemma same_static_refl w : same_static w w.
Proof. split; [apply same_config_refl | auto]. Qed.

Lemma same_static_trans w1 w2 w3 :
  same_static w1 w2 -> same_static w2 w3 -> same_static w1 w3.
Proof.
  intros [C12 B12] [C23 B23]. split.
  - eapply same_config_trans; eauto.
  - intro q. rewrite B23. apply B12.
Qed.

Lemma same_static_sym w1 w2 : same_static w1 w2 -> same_static w2 w1.
Proof. intros [C B]. split; [now apply same_config_sym | auto]. Qed.

Lemma same_devices_static w w' : devices w' = devices w -> same_static w w'.
Proof. intro E. split; [intro q | intro q]; rewrite E; auto. Qed.

Lemma same_static_config w w' : same_static w w' -> same_config w w'.
Proof. now intros [C _]. Qed.

Lemma same_config_installed w w' p :
  same_config w w' -> installed (dev w' p) = installed (dev w p).
Proof. intro H. apply (H (Z.abs p)). Qed.

Lemma same_config_fails w w' p :
  same_config w w' -> fails (dev w' p) = fails (dev w p).
Proof. intro H. apply (H (Z.abs p)). Qed.

Lemma same_config_read_cartridge w w' p :
  same_config w w' ->
  Motor.read_cartridge (dev w' p) = Motor.read_cartridge (dev w p).
Proof.
  intro H. unfold Motor.read_cartridge, dev.
  destruct (H (Z.abs p)) as (_ & F & C). now rewrite F, C.
Qed.

Lemma same_static_read_brakeMode w w' p :
  same_static w w' ->
  Motor.read_brakeMode (dev w' p) = Motor.read_brakeMode (dev w p).
Proof.
  intros [H B]. unfold Motor.read_brakeMode, dev.
  destruct (H (Z.abs p)) as (_ & F & _). now rewrite F, B.
Qed.

Lemma same_config_read_isConnected w w' p :
  same_config w w' ->
  Motor.read_isConnected (dev w' p) = Motor.read_isConnected (dev w p).
Proof.
  intro H. unfold Motor.read_isConnected, dev.
  destruct (H (Z.abs p)) as (I & F & _). now rewrite F, I.
Qed.

(** A getter returns what the device reports and touches only [errno]. *)
Lemma getter_fst {A : Type} op (read : Device -> A) p w :
  fst (Motor.getter op read p w) = read (dev w p).
Proof. reflexivity. Qed.

Lemma getter_devices {A : Type} op (read : Device -> A) p w :
  devices (snd (Motor.getter op read p w)) = devices w.
Proof. unfold Motor.getter; simpl. now destruct (fails (dev w p) op). Qed.

Lemma getter_issued {A : Type} op (read : Device -> A) p w :
  issued (snd (Motor.getter op read p w)) = issued w.
Proof. unfold Motor.getter; simpl. now destruct (fails (dev w p) op). Qed.

(** A command returns 0 exactly when the operation does not fail on the
    device, and is appended to the issued commands either way. *)
Lemma command_fst op c p store w :
  fst (Motor.command op c p store w) = if fails (dev w p) op then INT_MAX else 0.
Proof. unfold Motor.command. now destruct (fails (dev w p) op). Qed.

Lemma command_issued op c p store w :
  issued (snd (Motor.command op c p store w)) = issued w ++ [c].
Proof. unfold Motor.command. now destruct (fails (dev w p) op). Qed.

Lemma command_config op c p store w :
  (forall d, installed (store d) = installed d /\
             fails (store d) = fails d /\
             cartridge (store d) = cartridge d) ->
  same_config w (snd (Motor.command op c p store w)).
Proof.
  intros Hs q. unfold Motor.command.
  destruct (fails (dev w p) op); simpl; auto.
  destruct (q =? Z.abs p) eqn:E; auto.
  apply Z.eqb_eq in E; subst q. apply Hs.
Qed.

Lemma command_static op c p store w :
  (forall d, installed (store d) = installed d /\
             fails (store d) = fails d /\
             cartridge (store d) = cartridge d) ->
  (fails (dev w p) op = false -> brakeMode (store (dev w p)) = brakeMode (dev w p)) ->
  same_static w (snd (Motor.command op c p store w)).
Proof.
  intros Hs Hb. split; [now apply command_config |].
  intro q. unfold Motor.command.
  destruct (fails (dev w p) op); simpl; auto.
  destruct (q =? Z.abs p) eqn:E; auto.
  apply Z.eqb_eq in E; subst q. now apply Hb.
Qed.

Lemma setAngle_static p a w : same_static w (snd (Motor.setAngle p a w)).
Proof. apply command_static; simpl; auto. Qed.

Lemma setBrakeMode_config p m w : same_config w (snd (Motor.setBrakeMode p m w)).
Proof. apply command_config; simpl; auto. Qed.

(** The same facts for each operation of the driver. *)
Lemma getBrakeMode_fst p w :
  fst (Motor.getBrakeMode p w) = Motor.read_brakeMode (dev w p).
Proof. reflexivity. Qed.

Lemma getBrakeMode_devices p w : devices (snd (Motor.getBrakeMode p w)) = devices w.
Proof. apply getter_devices. Qed.

Lemma getBrakeMode_issued p w : issued (snd (Motor.getBrakeMode p w)) = issued w.
Proof. apply getter_issued. Qed.

Lemma getCartridge_fst p w :
  fst (Motor.getCartridge p w) = Motor.read_cartridge (dev w p).
Proof. reflexivity. Qed.

Lemma getCartridge_devices p w : devices (snd (Motor.getCartridge p w)) = devices w.
Proof. apply getter_devices. Qed.

Lemma getCartridge_issued p w : issued (snd (Motor.getCartridge p w)) = issued w.
Proof. apply getter_issued. Qed.

Lemma getAngle_fst f p w :
  fst (Motor.getAngle f p w) = Motor.read_angle f (dev w p).
Proof. reflexivity. Qed.

Lemma getAngle_devices f p w : devices (snd (Motor.getAngle f p w)) = devices w.
Proof. apply getter_devices. Qed.

Lemma getAngle_issued f p w : issued (snd (Motor.getAngle f p w)) = issued w.
Proof. apply getter_issued. Qed.

Lemma isConnected_fst p w :
  fst (Motor.isConnected p w) = Motor.read_isConnected (dev w p).
Proof. reflexivity. Qed.

Lemma isConnected_devices p w : devices (snd (Motor.isConnected p w)) = devices w.
Proof. apply getter_devices. Qed.

Lemma isConnected_issued p w : issued (snd (Motor.isConnected p w)) = issued w.
Proof. apply getter_issued. Qed.

Lemma setBrakeMode_fst p m w :
  fst (Motor.setBrakeMode p m w) = if fails (dev w p) OpSetBrakeMode then INT_MAX else 0.
Proof. apply command_fst. Qed.

Lemma setAngle_fst p a w :
  fst (Motor.setAngle p a w) = if fails (dev w p) OpSetAngle then INT_MAX else 0.
Proof. apply command_fst. Qed.

Lemma is_installed_run p w :
  Motor.is_installed p w = (installed (dev w p), w).
Proof. reflexivity. Qed.

(** Writing back the brake mode a motor reports changes nothing static. *)
Lemma setBrakeMode_same_static p w :
  BrakeMode_is_INVALID (Motor.read_brakeMode (dev w p)) = false ->
  same_static w (snd (Motor.setBrakeMode p (Motor.read_brakeMode (dev w p)) w)).
Proof.
  intro V. apply command_static; simpl; auto. intros _.
  unfold Motor.read_brakeMode in *.
  destruct (fails (dev w p) OpGetBrakeMode); [discriminate | reflexivity].
Qed.

(** ** The outcome of configureMotor *)

Section ConfigureProps.

Variable from_stDeg : float -> float.

(** The first loop of [configureMotor] as a function of the devices: the
    first pair whose motor object (port 1 or 0) reports a brake mode decides,
    by whether setting a brake mode fails on it. *)
Fixpoint brake_outcome (w : World) (motors : list (Z * bool)) (success : bool) : bool :=
  match motors with
  | [] => success
  | pr :: rest =>
      let d := dev w (if snd pr then 1 else 0) in
      if BrakeMode_is_INVALID (Motor.read_brakeMode d)
      then brake_outcome w rest success
      else if fails d OpSetBrakeMode then false else success
  end.

(** The value [configureMotor] returns, as a function of the devices. *)
Definition configure_result (w : World) (motors : list (Z * bool)) (port : Z) : Z :=
  let d := dev w (to_int8 port) in
  if fails d OpSetAngle then 0
  else if brake_outcome w motors true
          && negb (Cartridge_is_INVALID (Motor.read_cartridge d))
       then 0 else 1.

(** The peers [configureMotor] averages over. *)
Definition peers_of (w : World) (motors : list (Z * bool)) (port : Z) : list Z :=
  map fst (filter (fun pr => negb (same_port port pr) && installed (dev w (fst pr)))
                  motors).

Lemma brake_outcome_static w w' l s :
  same_static w w' -> brake_outcome w' l s = brake_outcome w l s.
Proof.
  intro H. induction l as [|pr rest IH]; simpl; auto.
  rewrite (same_static_read_brakeMode _ _ _ H), IH.
  now rewrite (same_config_fails _ _ _ (same_static_config _ _ H)).
Qed.

Lemma configure_result_static w w' l p :
  same_static w w' -> configure_result w' l p = configure_result w l p.
Proof.
  intro H. unfold configure_result.
  rewrite (brake_outcome_static _ _ _ _ H).
  pose proof (same_static_config _ _ H) as C.
  now rewrite (same_config_fails _ _ _ C), (same_config_read_cartridge _ _ _ C).
Qed.

Lemma peers_of_static w w' l p :
  same_config w w' -> peers_of w' l p = peers_of w l p.
Proof.
  intro H. unfold peers_of. f_equal. apply filter_ext. intro pr.
  now rewrite (same_config_installed _ _ _ H).
Qed.

Lemma configure_brake_spec l s w :
  fst (configure_brake l s w) = brake_outcome w l s /\
  same_static w (snd (configure_brake l s w)).
Proof.
  revert w. induction l as [|pr rest IH]; intro w; simpl.
  - split; [reflexivity | apply same_static_refl].
  - rewrite bind_run, getBrakeMode_fst.
    set (m := if snd pr then 1 else 0).
    set (w1 := snd (Motor.getBrakeMode m w)).
    assert (D1 : devices w1 = devices w) by apply getBrakeMode_devices.
    assert (S1 : same_static w w1) by now apply same_devices_static.
    destruct (BrakeMode_is_INVALID (Motor.read_brakeMode (dev w m))) eqn:Einv.
    + destruct (IH w1) as [R S]. split.
      * rewrite R. now apply brake_outcome_static.
      * eapply same_static_trans; eauto.
    + rewrite bind_run, setBrakeMode_fst.
      assert (E : dev w1 m = dev w m) by (unfold dev; now rewrite D1).
      rewrite E.
      assert (S2 : same_static w1
                (snd (Motor.setBrakeMode m (Motor.read_brakeMode (dev w m)) w1))).
      { rewrite <- E. apply setBrakeMode_same_static. now rewrite E. }
      split.
      * destruct (fails (dev w m) OpSetBrakeMode); reflexivity.
      * destruct (fails (dev w m) OpSetBrakeMode); simpl;
          eapply same_static_trans; eauto.
Qed.

Lemma configure_peers_spec l port w :
  configure_peers l port w = (peers_of w l port, w).
Proof.
  unfold peers_of. induction l as [|pr rest IH]; simpl; auto.
  rewrite bind_run. unfold Motor.is_installed at 1 2; simpl.
  unfold same_port, Motor.get_port.
  destruct (Z.abs (fst pr) =? Z.abs port); simpl; auto.
  destruct (installed (dev w (fst pr))); simpl; auto.
  rewrite bind_run, IH. reflexivity.
Qed.

Lemma configure_sum_devices l a e w :
  devices (snd (configure_sum from_stDeg l a e w)) = devices w /\
  issued (snd (configure_sum from_stDeg l a e w)) = issued w.
Proof.
  revert a e w. induction l as [|m rest IH]; intros a e w; simpl; auto.
  rewrite bind_run, getAngle_fst.
  set (w1 := snd (Motor.getAngle from_stDeg m w)).
  assert (D1 : devices w1 = devices w) by apply getAngle_devices.
  assert (I1 : issued w1 = issued w) by apply getAngle_issued.
  destruct (is_INFINITY from_stDeg (Motor.read_angle from_stDeg (dev w m))).
  - destruct (IH a (e + 1) w1) as [D I]. split; congruence.
  - rewrite bind_run, getCartridge_fst.
    set (w2 := snd (Motor.getCartridge m w1)).
    assert (D2 : devices w2 = devices w1) by apply getCartridge_devices.
    assert (I2 : issued w2 = issued w1) by apply getCartridge_issued.
    destruct (Cartridge_is_INVALID (Motor.read_cartridge (dev w1 m))).
    + destruct (IH a (e + 1) w2) as [D I]. split; congruence.
    + destruct (IH (PrimFloat.add a (Motor.read_angle from_stDeg (dev w m))) e w2)
        as [D I]. split; congruence.
Qed.

Lemma configureMotor_spec l port w :
  fst (configureMotor from_stDeg l port w) = configure_result w l port /\
  same_static w (snd (configureMotor from_stDeg l port w)).
Proof.
  unfold configureMotor, configure_result.
  rewrite bind_run.
  destruct (configure_brake_spec l true w) as [R0 S0].
  set (w0 := snd (configure_brake l true w)) in *.
  rewrite R0. rewrite bind_run, getCartridge_fst.
  set (w1 := snd (Motor.getCartridge (to_int8 port) w0)).
  assert (S1 : same_static w0 w1)
    by (apply same_devices_static; apply getCartridge_devices).
  rewrite bind_run, configure_peers_spec. simpl fst; simpl snd.
  rewrite bind_run.
  set (ps := peers_of w1 l port).
  destruct (configure_sum_devices ps (zero_angle from_stDeg) 0 w1) as [D2 _].
  set (w2 := snd (configure_sum from_stDeg ps (zero_angle from_stDeg) 0 w1)) in *.
  assert (S2 : same_static w1 w2) by now apply same_devices_static.
  destruct (fst (configure_sum from_stDeg ps (zero_angle from_stDeg) 0 w1))
    as [tempAngle errors].
  rewrite bind_run, setAngle_fst.
  assert (S02 : same_static w w2)
    by (eapply same_static_trans; [eassumption|];
        eapply same_static_trans; eassumption).
  rewrite (same_config_fails _ _ _ (same_static_config _ _ S02)).
  rewrite (same_config_read_cartridge _ _ _ (same_static_config _ _ S0)).
  set (a := if negb (Z.of_nat (length ps) =? errors)
            then PrimFloat.div tempAngle (float_of_Z (Z.of_nat (length ps) - errors))
            else zero_angle from_stDeg).
  pose proof (setAngle_static (to_int8 port) a w2) as S3.
  assert (S : same_static w (snd (Motor.setAngle (to_int8 port) a w2)))
    by (eapply same_static_trans; eassumption).
  split.
  - destruct (fails (dev w (to_int8 port)) OpSetAngle); simpl; auto.
    destruct (Cartridge_is_INVALID (Motor.read_cartridge (dev w (to_int8 port))));
      destruct (brake_outcome w l true); reflexivity.
  - destruct (fails (dev w (to_int8 port)) OpSetAngle); simpl; exact S.
Qed.

End ConfigureProps.

(** ** The working set of getMotors *)

Section GetMotorsProps.

Variable from_stDeg : float -> float.

(** One visit of the loop of [getMotors], as a function of the devices:
    the pair as the loop leaves it, [current] being the whole vector. *)
Definition visit_pair (w : World) (current : list (Z * bool)) (pr : Z * bool)
  : Z * bool :=
  if negb (installed (dev w (fst pr))) then (fst pr, false)
  else if negb (snd pr)
       then (fst pr, configure_result w current (fst pr) =? 0)
       else (fst pr, true).

(** The pairs [todo] as the loop leaves them. *)
Fixpoint visit (w : World) (done todo : list (Z * bool)) : list (Z * bool) :=
  match todo with
  | [] => []
  | pr :: rest =>
      let pr' := visit_pair w (done ++ todo) pr in
      pr' :: visit w (done ++ [pr']) rest
  end.

(** The motors of the working set are the ports flagged as connected. *)
Definition flagged (motors : list (Z * bool)) : list Z :=
  map fst (filter snd motors).

Lemma visit_pair_static w w' l pr :
  same_static w w' -> visit_pair w' l pr = visit_pair w l pr.
Proof.
  intro H. unfold visit_pair.
  rewrite (same_config_installed _ _ _ (same_static_config _ _ H)).
  now rewrite (configure_result_static _ _ _ _ H).
Qed.

Lemma visit_static w w' done todo :
  same_static w w' -> visit w' done todo = visit w done todo.
Proof.
  intro H. revert done. induction todo as [|pr rest IH]; intro done; simpl; auto.
  now rewrite (visit_pair_static _ _ _ _ H), IH.
Qed.

Lemma flagged_app l1 l2 : flagged (l1 ++ l2) = flagged l1 ++ flagged l2.
Proof. unfold flagged. now rewrite filter_app, map_app. Qed.

Lemma flagged_cons p f l :
  flagged ((p, f) :: l) = if f then p :: flagged l else flagged l.
Proof. unfold flagged. simpl. now destruct f. Qed.

Lemma getMotors_loop_spec todo done ms w :
  fst (getMotors_loop from_stDeg done todo ms w)
  = (ms ++ flagged (visit w done todo), done ++ visit w done todo) /\
  same_static w (snd (getMotors_loop from_stDeg done todo ms w)).
Proof.
  revert done ms w. induction todo as [|[p f] rest IH]; intros done ms w.
  - simpl. rewrite !app_nil_r. split; [reflexivity | apply same_static_refl].
  - cbn [getMotors_loop visit]. rewrite bind_run, is_installed_run.
    unfold visit_pair. cbn [fst snd].
    destruct (installed (dev w p)) eqn:Ei; cbn [negb].
    + destruct f; cbn [negb].
      * destruct (IH (done ++ [(p, true)]) (ms ++ [p]) w) as [R S].
        split; [| exact S]. rewrite R, flagged_cons.
        now rewrite <- !app_assoc.
      * rewrite bind_run.
        destruct (configureMotor_spec from_stDeg (done ++ (p, false) :: rest) p w)
          as [Rc Sc].
        rewrite Rc.
        set (w1 := snd (configureMotor from_stDeg (done ++ (p, false) :: rest) p w)) in *.
        destruct (configure_result w (done ++ (p, false) :: rest) p =? 0) eqn:Er;
          cbn [negb].
        -- destruct (IH (done ++ [(p, true)]) (ms ++ [p]) w1) as [R S].
           split; [| eapply same_static_trans; eauto].
           rewrite R, (visit_static _ _ _ _ Sc), flagged_cons.
           now rewrite <- !app_assoc.
        -- destruct (IH (done ++ [(p, false)]) ms w1) as [R S].
           split; [| eapply same_static_trans; eauto].
           rewrite R, (visit_static _ _ _ _ Sc), flagged_cons.
           now rewrite <- !app_assoc.
    + destruct (IH (done ++ [(p, false)]) ms w) as [R S].
      split; [| exact S]. rewrite R, flagged_cons.
      now rewrite <- !app_assoc.
Qed.

(** *** A second visit changes nothing

    [getAngle] calls [getMotors] twice, the second time through [getSize].
    The outcome of [configureMotor] depends on the flags of the vector
    through its first loop only, and that dependence is such that a pair
    left as disconnected by a visit is left so by the next one, provided
    some pair is flagged as connected. *)

(** Whether the motor object built from the flag [b] reports a brake mode. *)
Definition reports (w : World) (b : bool) : bool :=
  negb (BrakeMode_is_INVALID
          (Motor.read_brakeMode (dev w (if b then 1 else 0)))).

Lemma brake_outcome_cons w pr rest s :
  brake_outcome w (pr :: rest) s =
  if reports w (snd pr)
  then (if fails (dev w (if snd pr then 1 else 0)) OpSetBrakeMode then false else s)
  else brake_outcome w rest s.
Proof.
  unfold reports. simpl.
  now destruct (BrakeMode_is_INVALID
                  (Motor.read_brakeMode (dev w (if snd pr then 1 else 0)))).
Qed.

Lemma brake_outcome_none w l s :
  reports w false = false -> reports w true = false ->
  brake_outcome w l s = s.
Proof.
  intros H0 H1. induction l as [|[p f] rest IH]; auto.
  rewrite brake_outcome_cons. cbn [snd]. destruct f; now rewrite ?H0, ?H1.
Qed.

Lemma brake_outcome_port1 w l :
  reports w false = false -> reports w true = true ->
  brake_outcome w l true
  = negb (existsb snd l && fails (dev w 1) OpSetBrakeMode).
Proof.
  intros H0 H1. induction l as [|[p f] rest IH]; auto.
  rewrite brake_outcome_cons. cbn [snd existsb]. destruct f.
  - rewrite H1. cbn [orb andb]. now destruct (fails (dev w 1) OpSetBrakeMode).
  - rewrite H0. exact IH.
Qed.

Lemma brake_outcome_port0 w done p x y s :
  reports w false = true ->
  brake_outcome w (done ++ (p, false) :: x) s
  = brake_outcome w (done ++ (p, false) :: y) s.
Proof.
  intro H0. induction done as [|[q f] rest IH]; cbn [app].
  - rewrite !brake_outcome_cons. cbn [snd]. now rewrite H0.
  - rewrite !brake_outcome_cons. cbn [snd]. now rewrite IH.
Qed.

Lemma brake_outcome_stable w done p x y :
  brake_outcome w (done ++ (p, false) :: x) true = false ->
  existsb snd (done ++ (p, false) :: y) = true ->
  brake_outcome w (done ++ (p, false) :: y) true = false.
Proof.
  intros Hx Hy.
  destruct (reports w false) eqn:H0.
  - now rewrite <- (brake_outcome_port0 w done p x y true H0).
  - destruct (reports w true) eqn:H1.
    + rewrite (brake_outcome_port1 _ _ H0 H1) in Hx.
      rewrite (brake_outcome_port1 _ _ H0 H1), Hy. cbn [andb].
      destruct (fails (dev w 1) OpSetBrakeMode); [reflexivity |].
      rewrite andb_false_r in Hx. discriminate.
    + rewrite (brake_outcome_none _ _ _ H0 H1) in Hx. discriminate.
Qed.

Lemma configure_result_stable w done p x y :
  (configure_result w (done ++ (p, false) :: x) p =? 0) = false ->
  existsb snd (done ++ (p, false) :: y) = true ->
  (configure_result w (done ++ (p, false) :: y) p =? 0) = false.
Proof.
  unfold configure_result. intros Hx Hy.
  destruct (fails (dev w (to_int8 p)) OpSetAngle); [discriminate |].
  destruct (brake_outcome w (done ++ (p, false) :: x) true) eqn:B.
  - cbn [andb] in *.
    destruct (negb (Cartridge_is_INVALID (Motor.read_cartridge (dev w (to_int8 p)))));
      [discriminate |].
    now rewrite andb_false_r.
  - now rewrite (brake_outcome_stable _ _ _ _ _ B Hy).
Qed.

Lemma visit_idem w todo done :
  existsb snd (done ++ visit w done todo) = true ->
  visit w done (visit w done todo) = visit w done todo.
Proof.
  revert done. induction todo as [|[p f] rest IH]; intros done Hex; auto.
  cbn [visit] in *.
  destruct (visit_pair w (done ++ (p, f) :: rest) (p, f)) as [q b] eqn:E.
  set (sfx := visit w (done ++ [(q, b)]) rest) in *.
  assert (Hex' : existsb snd ((done ++ [(q, b)]) ++ sfx) = true)
    by now rewrite <- app_assoc.
  assert (Hpr : visit_pair w (done ++ (q, b) :: sfx) (q, b) = (q, b)).
  { unfold visit_pair in E |- *. cbn [fst snd] in *.
    destruct (installed (dev w p)) eqn:Ei; cbn [negb] in E.
    - destruct f; cbn [negb] in E; injection E as <- Hb.
      + subst b. now rewrite Ei.
      + rewrite Ei. cbn [negb]. destruct b; cbn [negb]; [reflexivity |].
        now rewrite (configure_result_stable _ _ _ _ _ Hb Hex).
    - injection E as <- <-. now rewrite Ei. }
  rewrite Hpr. f_equal. now apply IH.
Qed.

(** A pair is flagged as connected only if its motor is installed. *)
Lemma visit_pair_installed w l pr :
  snd (visit_pair w l pr) = true ->
  installed (dev w (fst (visit_pair w l pr))) = true.
Proof.
  unfold visit_pair.
  destruct (installed (dev w (fst pr))) eqn:Ei; cbn [negb].
  - destruct (negb (snd pr)); cbn [fst snd]; auto.
  - cbn [snd]. discriminate.
Qed.

Lemma visit_flagged_installed w todo done m :
  In m (flagged (visit w done todo)) -> installed (dev w m) = true.
Proof.
  revert done. induction todo as [|pr rest IH]; intros done Hin.
  - destruct Hin.
  - cbn [visit] in Hin.
    set (pr' := visit_pair w (done ++ pr :: rest) pr) in *.
    destruct pr' as [q b] eqn:E. rewrite flagged_cons in Hin.
    destruct b.
    + destruct Hin as [<- | Hin]; [| eauto].
      pose proof (visit_pair_installed w (done ++ pr :: rest) pr) as H.
      fold pr' in H. rewrite E in H. now apply H.
    + eauto.
Qed.

Lemma flagged_nonempty l : flagged l <> [] -> existsb snd l = true.
Proof.
  induction l as [|[p f] rest IH]; [intro H; now destruct H |].
  rewrite flagged_cons. cbn [existsb snd]. destruct f; auto.
Qed.

End GetMotorsProps.

(** ** getMotors, getSize and getAngle *)

Section FeedbackProps.

Variable from_stDeg : float -> float.
Variable from_rpm : Z -> float.

Lemma getMotors_spec g w :
  fst (getMotors from_stDeg g w)
  = (flagged (visit w [] (m_motors g)),
     mkMotorGroup (visit w [] (m_motors g)) (m_outputVelocity g)) /\
  same_static w (snd (getMotors from_stDeg g w)).
Proof.
  unfold getMotors. rewrite bind_run.
  destruct (getMotors_loop_spec from_stDeg (m_motors g) [] [] w) as [R S].
  rewrite R. cbn [app]. split; [reflexivity | exact S].
Qed.

(** A second call of [getMotors] on unchanged hardware returns the same
    working set, as soon as the first one is not empty. *)
Lemma getMotors_again g w w' :
  same_static w w' ->
  fst (fst (getMotors from_stDeg g w)) <> [] ->
  fst (getMotors from_stDeg (snd (fst (getMotors from_stDeg g w))) w')
  = fst (getMotors from_stDeg g w).
Proof.
  intros S Hne.
  destruct (getMotors_spec g w) as [R _]. rewrite R in *. cbn [fst snd] in *.
  destruct (getMotors_spec
              (mkMotorGroup (visit w [] (m_motors g)) (m_outputVelocity g)) w')
    as [R' _].
  rewrite R'. cbn [m_motors m_outputVelocity].
  rewrite (visit_static _ _ _ _ S).
  rewrite visit_idem; [reflexivity |].
  cbn [app]. now apply flagged_nonempty.
Qed.

Lemma getMotors_installed g w m :
  In m (fst (fst (getMotors from_stDeg g w))) -> installed (dev w m) = true.
Proof.
  destruct (getMotors_spec g w) as [R _]. rewrite R. cbn [fst].
  apply visit_flagged_installed.
Qed.

(** [getSize] counts the motors of the working set whose connectivity
    answer is not 0. *)
Definition counts_as_connected (d : Device) : bool :=
  negb (Motor.read_isConnected d =? 0).

Lemma getSize_loop_spec l size w :
  fst (getSize_loop l size w)
  = size + Z.of_nat (length (filter (fun m => counts_as_connected (dev w m)) l)) /\
  devices (snd (getSize_loop l size w)) = devices w /\
  issued (snd (getSize_loop l size w)) = issued w.
Proof.
  revert size w. induction l as [|m rest IH]; intros size w.
  - simpl. repeat split. lia.
  - cbn [getSize_loop filter]. rewrite bind_run, isConnected_fst.
    set (w1 := snd (Motor.isConnected m w)).
    assert (D1 : devices w1 = devices w) by apply isConnected_devices.
    assert (I1 : issued w1 = issued w) by apply isConnected_issued.
    match goal with |- context [getSize_loop rest ?s w1] =>
      destruct (IH s w1) as (R & D & I) end.
    rewrite R. repeat split; try congruence.
    assert (E : forall q, dev w1 q = dev w q) by (intro q; unfold dev; now rewrite D1).
    rewrite (filter_ext _ (fun m => counts_as_connected (dev w m)))
      by (intro q; now rewrite E).
    unfold counts_as_connected.
    destruct (Motor.read_isConnected (dev w m) =? 0); cbn [negb length]; lia.
Qed.

Lemma installed_counts_as_connected d :
  installed d = true -> counts_as_connected d = true.
Proof.
  unfold counts_as_connected, Motor.read_isConnected. intros ->.
  now destruct (fails d OpIsConnected).
Qed.

Lemma filter_all {A : Type} (f : A -> bool) (l : list A) :
  (forall x, In x l -> f x = true) -> filter f l = l.
Proof.
  induction l as [|a l IH]; intro H; simpl; auto.
  rewrite (H a) by now left. f_equal. apply IH. intros; apply H; now right.
Qed.

Lemma filter_none {A : Type} (f : A -> bool) (l : list A) :
  forallb (fun x => negb (f x)) l = true -> filter f l = [].
Proof.
  induction l as [|a l IH]; simpl; auto.
  intro H. apply andb_true_iff in H as [Ha Hl].
  apply negb_true_iff in Ha. rewrite Ha. now apply IH.
Qed.

(** After [getMotors], on unchanged hardware, [getSize] is the size of the
    working set. *)
Lemma getSize_after_getMotors g w w' :
  same_static w w' ->
  fst (fst (getMotors from_stDeg g w)) <> [] ->
  fst (getSize from_stDeg (snd (fst (getMotors from_stDeg g w))) w')
  = (Z.of_nat (length (fst (fst (getMotors from_stDeg g w)))),
     snd (fst (getMotors from_stDeg g w))).
Proof.
  intros S Hne. unfold getSize. rewrite bind_run.
  rewrite (getMotors_again g w w' S Hne).
  destruct (getMotors_spec (snd (fst (getMotors from_stDeg g w))) w') as [_ S'].
  set (w2 := snd (getMotors from_stDeg (snd (fst (getMotors from_stDeg g w))) w')) in *.
  pose proof (getMotors_installed g w) as Hin.
  destruct (fst (getMotors from_stDeg g w)) as [motors g1]. cbn [fst snd] in *.
  rewrite bind_run.
  destruct (getSize_loop_spec motors 0 w2) as (R & _). rewrite R.
  cbn [ret fst]. f_equal. rewrite filter_all; [lia |].
  intros m Hm. apply installed_counts_as_connected.
  pose proof (same_static_config _ _ (same_static_trans _ _ _ S S')) as C.
  rewrite (same_config_installed _ _ m C). now apply Hin.
Qed.

(** *** The mean computed by getAngle *)

(** A member yields a reading when neither its angle nor its cartridge is
    the error value. *)
Definition valid_reading (d : Device) : bool :=
  negb (is_INFINITY from_stDeg (Motor.read_angle from_stDeg d))
  && negb (Cartridge_is_INVALID (Motor.read_cartridge d)).

(** The angle of a member in the frame of the output shaft: its own angle
    times outputVelocity / memberNominalVelocity. *)
Definition corrected_angle (outputVelocity : float) (d : Device) : float :=
  PrimFloat.mul (Motor.read_angle from_stDeg d)
    (PrimFloat.div outputVelocity
       (from_rpm (Cartridge_to_int (Motor.read_cartridge d)))).

(** The unweighted arithmetic mean of a list of angles: their sum, taken
    from [0_stDeg] in the order of the list, over their number. *)
Definition mean_angle (angles : list float) : float :=
  PrimFloat.div (fold_left PrimFloat.add angles (zero_angle from_stDeg))
                (float_of_Z (Z.of_nat (length angles))).

Lemma getAngle_loop_spec O l a e w :
  let valid := filter (fun m => valid_reading (dev w m)) l in
  fst (getAngle_loop from_stDeg from_rpm O l a e w)
  = (fold_left PrimFloat.add (map (fun m => corrected_angle O (dev w m)) valid) a,
     e + Z.of_nat (length l) - Z.of_nat (length valid)) /\
  devices (snd (getAngle_loop from_stDeg from_rpm O l a e w)) = devices w /\
  issued (snd (getAngle_loop from_stDeg from_rpm O l a e w)) = issued w.
Proof.
  cbv zeta. revert a e w. induction l as [|m rest IH]; intros a e w.
  - simpl. repeat split. f_equal. lia.
  - cbn [getAngle_loop filter]. rewrite bind_run, getAngle_fst.
    set (w1 := snd (Motor.getAngle from_stDeg m w)).
    assert (D1 : devices w1 = devices w) by apply getAngle_devices.
    assert (I1 : issued w1 = issued w) by apply getAngle_issued.
    assert (E1 : forall q, dev w1 q = dev w q) by (intro q; unfold dev; now rewrite D1).
    destruct (is_INFINITY from_stDeg (Motor.read_angle from_stDeg (dev w m))) eqn:Ea.
    + assert (V : valid_reading (dev w m) = false)
        by (unfold valid_reading; now rewrite Ea).
      rewrite V.
      destruct (IH a (e + 1) w1) as (R & D & I). rewrite R.
      rewrite (filter_ext _ (fun m => valid_reading (dev w m)))
        by (intro q; now rewrite E1).
      rewrite (map_ext _ (fun m => corrected_angle O (dev w m)))
        by (intro q; now rewrite E1).
      repeat split; try congruence. f_equal. cbn [length]. lia.
    + rewrite bind_run, getCartridge_fst.
      set (w2 := snd (Motor.getCartridge m w1)).
      assert (D2 : devices w2 = devices w) by
        (unfold w2; rewrite getCartridge_devices; exact D1).
      assert (I2 : issued w2 = issued w) by
        (unfold w2; rewrite getCartridge_issued; exact I1).
      assert (E2 : forall q, dev w2 q = dev w q) by (intro q; unfold dev; now rewrite D2).
      rewrite E1.
      destruct (Cartridge_is_INVALID (Motor.read_cartridge (dev w m))) eqn:Ec.
      * assert (V : valid_reading (dev w m) = false)
          by (unfold valid_reading; now rewrite Ea, Ec).
        rewrite V.
        destruct (IH a (e + 1) w2) as (R & D & I). rewrite R.
        rewrite (filter_ext _ (fun m => valid_reading (dev w m)))
          by (intro q; now rewrite E2).
        rewrite (map_ext _ (fun m => corrected_angle O (dev w m)))
          by (intro q; now rewrite E2).
        repeat split; try congruence. f_equal. cbn [length]. lia.
      * assert (V : valid_reading (dev w m) = true)
          by (unfold valid_reading; now rewrite Ea, Ec).
        rewrite V.
        match goal with |- context [getAngle_loop _ _ O rest ?a' e w2] =>
          destruct (IH a' e w2) as (R & D & I) end.
        rewrite R.
        rewrite (filter_ext _ (fun m => valid_reading (dev w m)))
          by (intro q; now rewrite E2).
        rewrite (map_ext _ (fun m => corrected_angle O (dev w m)))
          by (intro q; now rewrite E2).
        repeat split; try congruence. f_equal. cbn [length]. lia.
Qed.

(** The divisor of the division that ends [getAngle], when that division
    is reached: the same steps as [getAngle], returning [getSize() - errors]
    in place of the quotient. *)
Definition getAngle_divisor (g : MotorGroup) : HW (option Z) :=
  ' (motors, g1) <- getMotors from_stDeg g ;;
  ' (a, errors) <- getAngle_loop from_stDeg from_rpm (m_outputVelocity g)
                                 motors (zero_angle from_stDeg) 0 ;;
  if errors =? Z.of_nat (length motors) then ret None
  else
    ' (size, g2) <- getSize from_stDeg g1 ;;
    ret (Some (size - errors)).

(** What [getAngle] computes, step by step: the working set, the readings
    taken from the world the first [getMotors] leaves, and the size
    [getSize] reports afterwards. *)
Lemma getAngle_run g w :
  let motors := fst (fst (getMotors from_stDeg g w)) in
  let w1 := snd (getMotors from_stDeg g w) in
  let valid := filter (fun m => valid_reading (dev w1 m)) motors in
  let sum := fold_left PrimFloat.add
               (map (fun m => corrected_angle (m_outputVelocity g) (dev w1 m)) valid)
               (zero_angle from_stDeg) in
  fst (fst (getAngle from_stDeg from_rpm g w))
  = (if (length valid =? 0)%nat then INFINITY_angle from_stDeg
     else getAngle_mean sum (Z.of_nat (length valid))) /\
  fst (getAngle_divisor g w)
  = (if (length valid =? 0)%nat then None else Some (Z.of_nat (length valid))).
Proof.
  cbv zeta. unfold getAngle, getAngle_divisor. rewrite !bind_run.
  destruct (getMotors_spec g w) as [_ S1].
  pose proof (getSize_after_getMotors g w) as Hsize.
  set (w1 := snd (getMotors from_stDeg g w)) in *.
  destruct (fst (getMotors from_stDeg g w)) as [motors g1]. cbn [fst snd] in *.
  rewrite !bind_run.
  destruct (getAngle_loop_spec (m_outputVelocity g) motors (zero_angle from_stDeg) 0 w1)
    as (R & D & _).
  set (w2 := snd (getAngle_loop from_stDeg from_rpm (m_outputVelocity g) motors
                    (zero_angle from_stDeg) 0 w1)) in *.
  rewrite R.
  set (valid := filter (fun m => valid_reading (dev w1 m)) motors) in *.
  assert (Hle : (length valid <= length motors)%nat) by apply filter_length_le.
  destruct (length valid =? 0)%nat eqn:E0.
  - apply Nat.eqb_eq in E0. rewrite E0.
    replace (0 + Z.of_nat (length motors) - Z.of_nat 0 =? Z.of_nat (length motors))
      with true by (symmetry; apply Z.eqb_eq; lia).
    split; reflexivity.
  - apply Nat.eqb_neq in E0.
    replace (0 + Z.of_nat (length motors) - Z.of_nat (length valid)
             =? Z.of_nat (length motors))
      with false by (symmetry; apply Z.eqb_neq; lia).
    rewrite !bind_run.
    assert (S2 : same_static w w2).
    { eapply same_static_trans; [exact S1 |]. now apply same_devices_static. }
    assert (Hne : motors <> []) by (intros ->; now apply E0).
    rewrite (Hsize w2 S2 Hne). cbn [fst snd ret].
    replace (Z.of_nat (length motors)
             - (0 + Z.of_nat (length motors) - Z.of_nat (length valid)))
      with (Z.of_nat (length valid)) by lia.
    split; reflexivity.
Qed.

(** [getAngle] returns INFINITY when it does not divide, and the quotient by
    the divisor of [getAngle_divisor] when it does. *)
Lemma getAngle_divides g w :
  fst (getAngle_divisor g w) = None /\
  fst (fst (getAngle from_stDeg from_rpm g w)) = INFINITY_angle from_stDeg
  \/
  exists sum d,
    fst (getAngle_divisor g w) = Some d /\
    fst (fst (getAngle from_stDeg from_rpm g w)) = getAngle_mean sum d.
Proof.
  destruct (getAngle_run g w) as [R Rd]. rewrite R, Rd.
  destruct (length _ =? 0)%nat; [left; now split |].
  right. eauto.
Qed.

(** C1. [getAngle] returns the unweighted arithmetic mean of the
    gear-corrected angles (the angle of a member times outputVelocity over
    the nominal velocity of its cartridge) of exactly the members of the
    working set that yield a valid angle and a valid cartridge: the members
    in error are left out of the sum and of the divisor.  With no such
    member the result is the INFINITY sentinel. *)
Theorem getAngle_mean_of_valid_members (g : MotorGroup) (w : World) :
  let motors := fst (fst (getMotors from_stDeg g w)) in
  let w1 := snd (getMotors from_stDeg g w) in
  let valid := filter (fun m => valid_reading (dev w1 m)) motors in
  fst (fst (getAngle from_stDeg from_rpm g w))
  = match valid with
    | [] => INFINITY_angle from_stDeg
    | _ :: _ =>
        mean_angle
          (map (fun m => corrected_angle (m_outputVelocity g) (dev w1 m)) valid)
    end.
Proof.
  cbv zeta. destruct (getAngle_run g w) as [R _]. rewrite R.
  unfold mean_angle, getAngle_mean. rewrite length_map.
  now destruct (filter _ _).
Qed.

(** C7. When every member of the working set errors on its angle or on its
    cartridge (the empty working set included), [getAngle] returns the
    INFINITY sentinel; and whenever [getAngle] reaches its final division,
    the divisor [getSize() - errors] is positive, so it never divides by
    zero. *)
Theorem getAngle_all_errors_and_divisor (g : MotorGroup) (w : World) :
  let motors := fst (fst (getMotors from_stDeg g w)) in
  let w1 := snd (getMotors from_stDeg g w) in
  (forallb (fun m => negb (valid_reading (dev w1 m))) motors = true ->
   fst (fst (getAngle from_stDeg from_rpm g w)) = INFINITY_angle from_stDeg) /\
  (forall d, fst (getAngle_divisor g w) = Some d -> 0 < d).
Proof.
  cbv zeta. destruct (getAngle_run g w) as [R Rd]. split.
  - intro Hall. rewrite R.
    now rewrite (filter_none _ _ Hall).
  - intros d Hd. rewrite Rd in Hd.
    destruct (length _ =? 0)%nat eqn:E0; [discriminate |].
    apply Nat.eqb_neq in E0. injection Hd as <-. lia.
Qed.

End FeedbackProps.

(** ** Commands sent to the group *)

Section CommandProps.

Variable from_stDeg : float -> float.
Variable from_rpm : Z -> float.

(** The number of motors of [motors] on which the driver operation [op]
    reports success, that is returns 0. *)
Definition successes (op : Z -> HW Z) (w : World) (motors : list Z) : nat :=
  length (filter (fun m => fst (op m w) =? 0) motors).

(** Best-effort broadcast: success exactly when one member succeeded, the
    [int] error value otherwise. *)
Definition best_effort (result : Z) (M : nat) : Prop :=
  (result = 0 <-> (1 <= M)%nat) /\ (M = 0%nat -> result = INT_MAX).

Lemma broadcast_spec (op : Z -> HW Z) (o : DriverOp) :
  (forall m w, fst (op m w) = if fails (dev w m) o then INT_MAX else 0) ->
  (forall m w, same_config w (snd (op m w))) ->
  forall motors s w,
    fst (broadcast op motors s w)
    = (s || existsb (fun m => fst (op m w) =? 0) motors) /\
    same_config w (snd (broadcast op motors s w)).
Proof.
  intros Hfst Hcfg. induction motors as [|m rest IH]; intros s w.
  - simpl. rewrite orb_false_r. split; [reflexivity | apply same_config_refl].
  - cbn [broadcast existsb]. rewrite bind_run.
    set (w1 := snd (op m w)).
    assert (C1 : same_config w w1) by apply Hcfg.
    destruct (IH (if fst (op m w) =? 0 then true else s) w1) as [R C].
    rewrite R. split; [| eapply same_config_trans; eauto].
    assert (E : existsb (fun m0 => fst (op m0 w1) =? 0) rest
                = existsb (fun m0 => fst (op m0 w) =? 0) rest).
    { clear IH R C. induction rest as [|a rest IH]; simpl; auto.
      now rewrite IH, !Hfst, (same_config_fails _ _ _ C1). }
    rewrite E.
    destruct (fst (op m w) =? 0), s; simpl; auto using orb_true_r.
Qed.

Lemma best_effort_of_broadcast (op : Z -> HW Z) (w : World) (motors : list Z) :
  best_effort
    (if false || existsb (fun m => fst (op m w) =? 0) motors then 0 else INT_MAX)
    (successes op w motors).
Proof.
  unfold best_effort, successes. cbn [orb].
  induction motors as [|m rest [IH1 IH2]]; cbn [existsb filter length].
  - split; [split; [discriminate | lia] | reflexivity].
  - destruct (fst (op m w) =? 0); cbn [orb length].
    + split; [split; [lia | reflexivity] | discriminate].
    + split; assumption.
Qed.

(** C5. [move], [brake] and [setBrakeMode] return 0 exactly when at least
    one member of the working set reports success, and INT_MAX when none
    does. *)
Theorem group_commands_best_effort (g : MotorGroup) (w : World)
        (percent : float) (mode : BrakeMode) :
  let motors := fst (fst (getMotors from_stDeg g w)) in
  let w1 := snd (getMotors from_stDeg g w) in
  best_effort (fst (fst (move from_stDeg g percent w)))
              (successes (fun m => Motor.move m percent) w1 motors) /\
  best_effort (fst (fst (brake from_stDeg g w)))
              (successes Motor.brake w1 motors) /\
  best_effort (fst (fst (setBrakeMode from_stDeg g mode w)))
              (successes (fun m => Motor.setBrakeMode m mode) w1 motors).
Proof.
  cbv zeta. unfold move, brake, setBrakeMode. rewrite !bind_run.
  set (w1 := snd (getMotors from_stDeg g w)).
  destruct (fst (getMotors from_stDeg g w)) as [motors g1]. cbn [fst snd].
  rewrite !bind_run. cbn [ret fst].
  split; [| split].
  - destruct (broadcast_spec (fun m => Motor.move m percent) OpMove) with
      (motors := motors) (s := false) (w := w1) as [R _];
      [intros; apply command_fst | intros; apply command_config; auto |].
    rewrite R.
    apply (best_effort_of_broadcast (fun m => Motor.move m percent) w1 motors).
  - destruct (broadcast_spec Motor.brake OpBrake) with
      (motors := motors) (s := false) (w := w1) as [R _];
      [intros; apply command_fst | intros; apply command_config; auto |].
    rewrite R. apply (best_effort_of_broadcast Motor.brake w1 motors).
  - destruct (broadcast_spec (fun m => Motor.setBrakeMode m mode) OpSetBrakeMode) with
      (motors := motors) (s := false) (w := w1) as [R _];
      [intros; apply command_fst | intros; apply setBrakeMode_config |].
    rewrite R.
    apply (best_effort_of_broadcast (fun m => Motor.setBrakeMode m mode) w1 motors).
Qed.

(** *** moveVelocity *)

(** The gear ratio of a member: the nominal velocity of its cartridge over
    the velocity of the output shaft. *)
Definition gear_ratio (outputVelocity : float) (d : Device) : float :=
  PrimFloat.div (from_rpm (Cartridge_to_int (Motor.read_cartridge d)))
                outputVelocity.

Definition has_cartridge (d : Device) : bool :=
  negb (Cartridge_is_INVALID (Motor.read_cartridge d)).

Lemma broadcast_geared_issued (op : Z -> float -> HW Z) (mk : Z -> float -> Command) :
  (forall m x w, issued (snd (op m x w)) = issued w ++ [mk m x]) ->
  (forall m x w, same_config w (snd (op m x w))) ->
  forall O x motors s w,
    issued (snd (broadcast_geared from_rpm op O x motors s w))
    = issued w
      ++ map (fun m => mk m (PrimFloat.mul x (gear_ratio O (dev w m))))
             (filter (fun m => has_cartridge (dev w m)) motors) /\
    same_config w (snd (broadcast_geared from_rpm op O x motors s w)).
Proof.
  intros Hiss Hcfg O x. induction motors as [|m rest IH]; intros s w.
  - simpl. rewrite app_nil_r. split; [reflexivity | apply same_config_refl].
  - cbn [broadcast_geared filter]. rewrite bind_run, getCartridge_fst.
    set (w1 := snd (Motor.getCartridge m w)).
    assert (D1 : devices w1 = devices w) by apply getCartridge_devices.
    assert (I1 : issued w1 = issued w) by apply getCartridge_issued.
    assert (C1 : same_config w w1)
      by (apply same_static_config; now apply same_devices_static).
    unfold has_cartridge at 1.
    destruct (Cartridge_is_INVALID (Motor.read_cartridge (dev w m))) eqn:Ec;
      cbn [negb].
    + destruct (IH s w1) as [R C]. rewrite R, I1.
      split; [| eapply same_config_trans; eauto].
      f_equal. rewrite (filter_ext _ (fun m => has_cartridge (dev w m))).
      * apply map_ext. intro q. unfold gear_ratio.
        now rewrite (same_config_read_cartridge _ _ _ C1).
      * intro q. unfold has_cartridge.
        now rewrite (same_config_read_cartridge _ _ _ C1).
    + rewrite bind_run.
      set (v := PrimFloat.mul x
                  (PrimFloat.div
                     (from_rpm (Cartridge_to_int (Motor.read_cartridge (dev w m)))) O)).
      set (w2 := snd (op m v w1)).
      assert (C2 : same_config w w2)
        by (eapply same_config_trans; [exact C1 | apply Hcfg]).
      destruct (IH (if fst (op m v w1) =? 0 then true else s) w2) as [R C].
      rewrite R. split; [| eapply same_config_trans; eauto].
      unfold w2 at 1. rewrite Hiss, I1. cbn [map]. rewrite <- app_assoc.
      cbn [app]. do 2 f_equal.
      rewrite (filter_ext _ (fun m => has_cartridge (dev w m))).
      * apply map_ext. intro q. unfold gear_ratio.
        now rewrite (same_config_read_cartridge _ _ _ C2).
      * intro q. unfold has_cartridge.
        now rewrite (same_config_read_cartridge _ _ _ C2).
Qed.

(** C6. [moveVelocity v] sends to every member of the working set whose
    cartridge can be read the velocity [v] times its gear ratio (nominal
    velocity of the member over the output velocity), in the order of the
    working set, and sends nothing to a member whose cartridge reads as
    INVALID. *)
Theorem moveVelocity_issues_geared_velocities
        (g : MotorGroup) (velocity : float) (w : World) :
  let motors := fst (fst (getMotors from_stDeg g w)) in
  let w1 := snd (getMotors from_stDeg g w) in
  issued (snd (moveVelocity from_stDeg from_rpm g velocity w))
  = issued w1
    ++ map (fun m => CmdMoveVelocity m
                       (PrimFloat.mul velocity
                          (gear_ratio (m_outputVelocity g) (dev w1 m))))
           (filter (fun m => has_cartridge (dev w1 m)) motors).
Proof.
  cbv zeta. unfold moveVelocity. rewrite !bind_run.
  set (w1 := snd (getMotors from_stDeg g w)).
  destruct (fst (getMotors from_stDeg g w)) as [motors g1]. cbn [fst snd].
  rewrite !bind_run. cbn [ret snd].
  destruct (broadcast_geared_issued Motor.moveVelocity CmdMoveVelocity) with
    (O := m_outputVelocity g) (x := velocity) (motors := motors) (s := false) (w := w1)
    as [R _].
  - intros; apply command_issued.
  - intros; apply command_config; auto.
  - exact R.
Qed.

(** *** isConnected *)

Lemma existsb_same {A : Type} (f f' : A -> bool) (l : list A) :
  (forall x, f x = f' x) -> existsb f l = existsb f' l.
Proof. intro H. induction l as [|a l IH]; simpl; auto. now rewrite H, IH. Qed.

Lemma isConnected_loop_spec motors w :
  fst (isConnected_loop motors w)
  = if existsb (fun m => Motor.read_isConnected (dev w m) =? 1) motors
    then 1 else 0.
Proof.
  revert w. induction motors as [|m rest IH]; intro w; auto.
  cbn [isConnected_loop existsb]. rewrite bind_run, isConnected_fst.
  destruct (Motor.read_isConnected (dev w m) =? 1); auto.
  rewrite IH. cbn [orb].
  assert (E : forall q, dev (snd (Motor.isConnected m w)) q = dev w q)
    by (intro q; unfold dev; now rewrite isConnected_devices).
  rewrite (existsb_same _ (fun m => Motor.read_isConnected (dev w m) =? 1));
    [reflexivity |].
  intro q. now rewrite E.
Qed.

(** C10. [isConnected] returns 1 when a member of the working set reports
    1, connected, and 0 otherwise; it returns no error value, whatever the
    members report. *)
Theorem isConnected_any_member (g : MotorGroup) (w : World) :
  let motors := fst (fst (getMotors from_stDeg g w)) in
  let w1 := snd (getMotors from_stDeg g w) in
  fst (fst (isConnected from_stDeg g w))
  = (if existsb (fun m => fst (Motor.isConnected m w1) =? 1) motors
     then 1 else 0) /\
  fst (fst (isConnected from_stDeg g w)) <> INT_MAX.
Proof.
  cbv zeta. unfold isConnected. rewrite !bind_run.
  set (w1 := snd (getMotors from_stDeg g w)).
  destruct (fst (getMotors from_stDeg g w)) as [motors g1]. cbn [fst snd].
  rewrite !bind_run. cbn [ret fst]. rewrite isConnected_loop_spec.
  split.
  - reflexivity.
  - destruct (existsb _ motors); discriminate.
Qed.

End CommandProps.

(** ** Membership *)

Section MembershipProps.

Variable from_stDeg : float -> float.

(** C8. [addMotor] with a port whose absolute value is that of a tracked
    port returns INT_MAX with [errno] set to EEXIST, and leaves the group as
    it was: no pair is added, no flag changes, and nothing is asked of the
    hardware (no device changes, no command is issued). *)
Theorem addMotor_duplicate_rejected (g : MotorGroup) (port : Z) (w : World) :
  (exists pr, In pr (m_motors g) /\ Z.abs (fst pr) = Z.abs port) ->
  let r := addMotor from_stDeg g port w in
  fst (fst r) = INT_MAX /\
  errno (snd r) = EEXIST /\
  snd (fst r) = g /\
  devices (snd r) = devices w /\
  issued (snd r) = issued w.
Proof.
  intros (pr & Hin & Habs). cbv zeta. unfold addMotor.
  replace (existsb (same_port port) (m_motors g)) with true.
  - repeat split.
  - symmetry. apply existsb_exists. exists pr. split; [exact Hin |].
    unfold same_port. now apply Z.eqb_eq.
Qed.

(** No absolute port occurs twice in [m_motors]. *)
Definition distinct_ports (g : MotorGroup) : Prop :=
  NoDup (map (fun pr => Z.abs (fst pr)) (m_motors g)).

(** The ports an [int8_t] holds. *)
Definition is_int8 (port : Z) : Prop := -128 <= port <= 127.

(** The groups obtained from a constructor by calls of [addMotor] and
    [removeMotor], the hardware being arbitrary at each call. *)
Inductive reachable : MotorGroup -> Prop :=
| reachable_new (ports : list Z) (outputVelocity : float) :
    reachable (MotorGroup_new ports outputVelocity)
| reachable_add (g : MotorGroup) (port : Z) (w : World) :
    reachable g ->
    reachable (snd (fst (addMotor from_stDeg g port w)))
| reachable_remove (g : MotorGroup) (port : Z) :
    reachable g -> reachable (removeMotor g port).

(** The same, from motors of distinct absolute ports and with ports added
    that fit an [int8_t]. *)
Inductive reachable_int8 : MotorGroup -> Prop :=
| reachable_int8_new (ports : list Z) (outputVelocity : float) :
    NoDup (map Z.abs ports) ->
    reachable_int8 (MotorGroup_new ports outputVelocity)
| reachable_int8_add (g : MotorGroup) (port : Z) (w : World) :
    reachable_int8 g -> is_int8 port ->
    reachable_int8 (snd (fst (addMotor from_stDeg g port w)))
| reachable_int8_remove (g : MotorGroup) (port : Z) :
    reachable_int8 g -> reachable_int8 (removeMotor g port).

Lemma to_int8_id port : is_int8 port -> to_int8 port = port.
Proof.
  unfold is_int8, to_int8. intro H.
  rewrite Z.mod_small by lia. lia.
Qed.

(** [removeMotor] keeps a sublist of the pairs, in their order. *)
Lemma removeMotor_loop_In l port pr :
  In pr (removeMotor_loop l port) -> In pr l.
Proof.
  induction l as [|x rest IH]; cbn [removeMotor_loop]; [tauto |].
  destruct (same_port port x); cbn [In]; tauto.
Qed.

Lemma removeMotor_distinct g port :
  distinct_ports g -> distinct_ports (removeMotor g port).
Proof.
  unfold distinct_ports, removeMotor. cbn [m_motors].
  induction (m_motors g) as [|x rest IH]; cbn [removeMotor_loop map]; intro Hd.
  - constructor.
  - apply NoDup_cons_iff in Hd as [Hx Hrest].
    destruct (same_port port x); [now apply IH |].
    cbn [map]. apply NoDup_cons_iff. split; [| now apply IH].
    intro Hin. apply Hx.
    apply in_map_iff in Hin as (y & Hy & Hin). apply in_map_iff.
    exists y. split; [exact Hy |]. now apply removeMotor_loop_In in Hin.
Qed.

Lemma addMotor_distinct g port w :
  is_int8 port -> distinct_ports g ->
  distinct_ports (snd (fst (addMotor from_stDeg g port w))).
Proof.
  intros H8 Hd. unfold addMotor.
  destruct (existsb (same_port port) (m_motors g)) eqn:Ex; [exact Hd |].
  rewrite bind_run. cbn [ret fst snd]. unfold distinct_ports. cbn [m_motors].
  rewrite map_app. cbn [map fst]. rewrite (to_int8_id _ H8).
  apply NoDup_app; [exact Hd | repeat constructor; intros [] |].
  intros a Hin [<- | []].
  apply in_map_iff in Hin as (pr & Hpr & Hin).
  assert (Hex : existsb (same_port port) (m_motors g) = true).
  { apply existsb_exists. exists pr. split; auto.
    unfold same_port. now apply Z.eqb_eq. }
  congruence.
Qed.

(** C9, amended. In every group obtained from a constructor given motors of
    pairwise distinct absolute ports, by calls of [removeMotor] and calls of
    [addMotor] with ports that fit an [int8_t], each absolute port occurs at
    most once in the membership list. *)
Theorem reachable_int8_distinct_ports (g : MotorGroup) :
  reachable_int8 g -> distinct_ports g.
Proof.
  induction 1 as [ports O Hnd | g port w Hr IH H8 | g port Hr IH].
  - unfold distinct_ports, MotorGroup_new. cbn [m_motors].
    rewrite map_map. cbn [fst]. exact Hnd.
  - now apply addMotor_distinct.
  - now apply removeMotor_distinct.
Qed.

Lemma visit_length w todo done : length (visit w done todo) = length todo.
Proof.
  revert done. induction todo as [|pr rest IH]; intro done; simpl; auto.
Qed.

(** The step of [getMotors] on a reconnection edge (the pair of port [p] is
    flagged as disconnected and the motor is installed), in terms of the
    value [configureMotor] returns: the call is made before the loop goes
    on, and the port joins the working set and is flagged as connected
    exactly when the returned value is 0. *)
Theorem getMotors_reconnection_edge
        (done rest : list (Z * bool)) (p : Z) (motors : list Z) (w : World) :
  installed (dev w p) = true ->
  let current := done ++ (p, false) :: rest in
  let ok := fst (configureMotor from_stDeg current p w) =? 0 in
  let w' := snd (configureMotor from_stDeg current p w) in
  getMotors_loop from_stDeg done ((p, false) :: rest) motors w
  = getMotors_loop from_stDeg (done ++ [(p, ok)]) rest
                   (if ok then motors ++ [p] else motors) w' /\
  exists rest' motors',
    length rest' = length rest /\
    fst (getMotors_loop from_stDeg done ((p, false) :: rest) motors w)
    = (motors ++ (if ok then [p] else []) ++ motors',
       done ++ (p, ok) :: rest').
Proof.
  intro Hi. cbv zeta.
  set (current := done ++ (p, false) :: rest).
  set (r := fst (configureMotor from_stDeg current p w)).
  set (w' := snd (configureMotor from_stDeg current p w)).
  assert (E : getMotors_loop from_stDeg done ((p, false) :: rest) motors w
              = getMotors_loop from_stDeg (done ++ [(p, r =? 0)]) rest
                  (if r =? 0 then motors ++ [p] else motors) w').
  { cbn [getMotors_loop]. rewrite bind_run, is_installed_run. cbn [fst snd].
    rewrite Hi. cbn [negb]. rewrite bind_run. fold current r w'.
    now destruct (r =? 0). }
  split; [exact E |].
  rewrite E.
  destruct (getMotors_loop_spec from_stDeg rest (done ++ [(p, r =? 0)])
              (if r =? 0 then motors ++ [p] else motors) w') as [R _].
  rewrite R.
  exists (visit w' (done ++ [(p, r =? 0)]) rest),
         (flagged (visit w' (done ++ [(p, r =? 0)]) rest)).
  split.
  - apply visit_length.
  - rewrite <- !app_assoc. cbn [app].
    destruct (r =? 0); now rewrite <- ?app_assoc.
Qed.

End MembershipProps.

(** ** What configureMotor writes *)

Section ReconfigureProps.

Variable from_stDeg : float -> float.
Variable from_rpm : Z -> float.

(** The first loop leaves every device as it was: it only writes back the
    brake mode it has just read. *)
Lemma configure_brake_devices l s w q :
  devices (snd (configure_brake l s w)) q = devices w q.
Proof.
  revert w. induction l as [|pr rest IH]; intro w; auto.
  cbn [configure_brake]. rewrite bind_run, getBrakeMode_fst.
  set (m := if snd pr then 1 else 0).
  set (w1 := snd (Motor.getBrakeMode m w)).
  assert (D1 : devices w1 = devices w) by apply getBrakeMode_devices.
  destruct (BrakeMode_is_INVALID (Motor.read_brakeMode (dev w m))) eqn:Einv.
  - now rewrite IH, D1.
  - rewrite bind_run.
    assert (E : devices (snd (Motor.setBrakeMode m (Motor.read_brakeMode (dev w m)) w1)) q
                = devices w q).
    { unfold Motor.setBrakeMode, Motor.command.
      unfold dev at 1. rewrite D1. fold (dev w m).
      destruct (fails (dev w m) OpSetBrakeMode); cbn [snd set_errno devices issue];
        [now rewrite D1 |].
      cbn [set_device devices issue].
      destruct (q =? Z.abs m) eqn:Eq; [| now rewrite D1].
      apply Z.eqb_eq in Eq. subst q. unfold dev. rewrite D1. fold (dev w m).
      unfold Motor.read_brakeMode in *.
      destruct (dev w m) as [i f b c a]; cbn in *.
      destruct (f OpGetBrakeMode); [discriminate | reflexivity]. }
    now destruct (fst (Motor.setBrakeMode m (Motor.read_brakeMode (dev w m)) w1) =? 0).
Qed.

Lemma configure_sum_spec l a e w :
  let valid := filter (fun m => valid_reading from_stDeg (dev w m)) l in
  fst (configure_sum from_stDeg l a e w)
  = (fold_left PrimFloat.add
       (map (fun m => Motor.read_angle from_stDeg (dev w m)) valid) a,
     e + Z.of_nat (length l) - Z.of_nat (length valid)).
Proof.
  cbv zeta. revert a e w. induction l as [|m rest IH]; intros a e w.
  - simpl. f_equal. lia.
  - cbn [configure_sum filter]. rewrite bind_run, getAngle_fst.
    set (w1 := snd (Motor.getAngle from_stDeg m w)).
    assert (D1 : devices w1 = devices w) by apply getAngle_devices.
    assert (E1 : forall q, dev w1 q = dev w q) by (intro q; unfold dev; now rewrite D1).
    destruct (is_INFINITY from_stDeg (Motor.read_angle from_stDeg (dev w m))) eqn:Ea.
    + assert (V : valid_reading from_stDeg (dev w m) = false)
        by (unfold valid_reading; now rewrite Ea).
      rewrite V, IH.
      rewrite (filter_ext _ (fun m => valid_reading from_stDeg (dev w m)))
        by (intro q; now rewrite E1).
      rewrite (map_ext _ (fun m => Motor.read_angle from_stDeg (dev w m)))
        by (intro q; now rewrite E1).
      f_equal. cbn [length]. lia.
    + rewrite bind_run, getCartridge_fst.
      set (w2 := snd (Motor.getCartridge m w1)).
      assert (D2 : devices w2 = devices w) by
        (unfold w2; rewrite getCartridge_devices; exact D1).
      assert (E2 : forall q, dev w2 q = dev w q) by (intro q; unfold dev; now rewrite D2).
      rewrite E1.
      destruct (Cartridge_is_INVALID (Motor.read_cartridge (dev w m))) eqn:Ec.
      * assert (V : valid_reading from_stDeg (dev w m) = false)
          by (unfold valid_reading; now rewrite Ea, Ec).
        rewrite V, IH.
        rewrite (filter_ext _ (fun m => valid_reading from_stDeg (dev w m)))
          by (intro q; now rewrite E2).
        rewrite (map_ext _ (fun m => Motor.read_angle from_stDeg (dev w m)))
          by (intro q; now rewrite E2).
        f_equal. cbn [length]. lia.
      * assert (V : valid_reading from_stDeg (dev w m) = true)
          by (unfold valid_reading; now rewrite Ea, Ec).
        rewrite V, IH.
        rewrite (filter_ext _ (fun m => valid_reading from_stDeg (dev w m)))
          by (intro q; now rewrite E2).
        rewrite (map_ext _ (fun m => Motor.read_angle from_stDeg (dev w m)))
          by (intro q; now rewrite E2).
        f_equal. cbn [length]. lia.
Qed.

(** The angle [configureMotor] writes: the mean of the angles of the valid
    peers as they read them, in their own frames, and [0_stDeg] without a
    valid peer. *)
Definition raw_peer_mean (w : World) (motors : list (Z * bool)) (port : Z) : float :=
  let valid := filter (fun m => valid_reading from_stDeg (dev w m))
                      (peers_of w motors port) in
  match valid with
  | [] => zero_angle from_stDeg
  | _ :: _ =>
      PrimFloat.div
        (fold_left PrimFloat.add
           (map (fun m => Motor.read_angle from_stDeg (dev w m)) valid)
           (zero_angle from_stDeg))
        (float_of_Z (Z.of_nat (length valid)))
  end.

(** The last command of [configureMotor] sets the motor to that mean: no
    gear ratio enters, neither that of a peer nor that of the motor. *)
Lemma configureMotor_sets_raw_mean motors port w :
  exists before,
    issued (snd (configureMotor from_stDeg motors port w))
    = before ++ [CmdSetAngle (to_int8 port) (raw_peer_mean w motors port)].
Proof.
  unfold configureMotor. rewrite bind_run.
  pose proof (configure_brake_devices motors true w) as D0.
  set (w0 := snd (configure_brake motors true w)) in *.
  rewrite bind_run.
  set (w1 := snd (Motor.getCartridge (to_int8 port) w0)).
  assert (D1 : forall q, devices w1 q = devices w q)
    by (intro q; unfold w1; now rewrite getCartridge_devices).
  assert (E1 : forall q, dev w1 q = dev w q) by (intro q; apply D1).
  rewrite bind_run, configure_peers_spec. cbn [fst snd]. rewrite bind_run.
  assert (P : peers_of w1 motors port = peers_of w motors port).
  { unfold peers_of. f_equal. apply filter_ext. intro pr. now rewrite E1. }
  rewrite P.
  set (ps := peers_of w motors port).
  rewrite (configure_sum_spec ps (zero_angle from_stDeg) 0 w1).
  rewrite (filter_ext _ (fun m => valid_reading from_stDeg (dev w m)))
    by (intro q; now rewrite E1).
  rewrite (map_ext _ (fun m => Motor.read_angle from_stDeg (dev w m)))
    by (intro q; now rewrite E1).
  set (w2 := snd (configure_sum from_stDeg ps (zero_angle from_stDeg) 0 w1)).
  rewrite bind_run.
  set (valid := filter (fun m => valid_reading from_stDeg (dev w m)) ps).
  assert (Hle : (length valid <= length ps)%nat) by apply filter_length_le.
  match goal with |- context [Motor.setAngle (to_int8 port) ?a w2] =>
    assert (Ea : a = raw_peer_mean w motors port) end.
  { unfold raw_peer_mean. fold ps valid.
    destruct valid as [|v vs] eqn:Ev.
    - cbn [length]. replace (Z.of_nat (length ps) =? 0 + Z.of_nat (length ps) - Z.of_nat 0)
        with true by (symmetry; apply Z.eqb_eq; lia).
      reflexivity.
    - replace (Z.of_nat (length ps)
               =? 0 + Z.of_nat (length ps) - Z.of_nat (length (v :: vs)))
        with false by (symmetry; apply Z.eqb_neq; cbn [length]; lia).
      cbn [negb]. do 2 f_equal. lia. }
  rewrite Ea.
  exists (issued w2).
  set (a := raw_peer_mean w motors port).
  assert (I : issued (snd (Motor.setAngle (to_int8 port) a w2))
              = issued w2 ++ [CmdSetAngle (to_int8 port) a]) by apply command_issued.
  now destruct (fst (Motor.setAngle (to_int8 port) a w2) =? INT_MAX).
Qed.

(** The angle the specification asks for: the mean of the angles of the
    valid peers in the frame of the output shaft, converted into the frame
    of the motor, that is multiplied by its gear ratio. *)
Definition geared_peer_mean (outputVelocity : float) (w : World)
           (motors : list (Z * bool)) (port : Z) : float :=
  let valid := filter (fun m => valid_reading from_stDeg (dev w m))
                      (peers_of w motors port) in
  PrimFloat.mul
    (mean_angle from_stDeg
       (map (fun m => corrected_angle from_stDeg from_rpm outputVelocity (dev w m))
            valid))
    (gear_ratio from_rpm outputVelocity (dev w (to_int8 port))).

(** [configureMotor] changes the brake mode of no device. *)
Lemma configureMotor_keeps_brake_modes motors port w q :
  brakeMode (devices (snd (configureMotor from_stDeg motors port w)) q)
  = brakeMode (devices w q).
Proof.
  destruct (configureMotor_spec from_stDeg motors port w) as [_ [_ B]]. apply B.
Qed.

End ReconfigureProps.

(** * Scenarios *)

(** An instance of the units library that holds an angle in degrees and an
    angular velocity in revolutions per minute. *)
Definition in_degrees (x : float) : float := x.
Definition in_rpm (n : Z) : float := float_of_Z n.

(** A port with nothing plugged in: every operation fails. *)
Definition no_motor : Device :=
  mkDevice false (fun _ => true) BrakeMode_INVALID Cartridge_INVALID 0%float.

(** A motor on which every operation succeeds. *)
Definition motor_with (c : Cartridge) (mode : BrakeMode) (a : float) : Device :=
  mkDevice true (fun _ => false) mode c a.

(** A motor that is installed but whose operation [op] fails. *)
Definition motor_failing (op : DriverOp) (c : Cartridge) (mode : BrakeMode)
           (a : float) : Device :=
  mkDevice true (DriverOp_eqb op) mode c a.

Fixpoint plugged (l : list (Z * Device)) (port : Z) : Device :=
  match l with
  | [] => no_motor
  | (p, d) :: rest => if port =? p then d else plugged rest port
  end.

Definition world_of (l : list (Z * Device)) : World := mkWorld (plugged l) 0 [].

(** Two members of ratios 1.0 and 2.0 on a 100 rpm output shaft, reading
    10 and 40 degrees in their own frames. *)
Definition two_ratios : World :=
  world_of [(1, motor_with RED HOLD 10%float); (2, motor_with GREEN HOLD 40%float)].

Definition group_12 : MotorGroup := MotorGroup_new [1; 2] (in_rpm 100).

(** The example of C1: the corrected angles are 10 and 20, their mean 15. *)
Example getAngle_two_ratios :
  fst (fst (getAngle in_degrees in_rpm group_12 two_ratios)) = 15%float.
Proof. vm_compute. reflexivity. Qed.

(** A third member whose angle cannot be read changes neither the sum nor
    the divisor. *)
Example getAngle_skips_errored_member :
  fst (fst (getAngle in_degrees in_rpm
              (MotorGroup_new [1; 2; 3] (in_rpm 100))
              (world_of [(1, motor_with RED HOLD 10%float);
                         (2, motor_with GREEN HOLD 40%float);
                         (3, motor_failing OpGetAngle BLUE HOLD 70%float)])))
  = 15%float.
Proof. vm_compute. reflexivity. Qed.

(** The example of C6: with nominal ratings 100 and 200 rpm and an output
    velocity of 100 rpm, a velocity of 50 is sent as 50 * 100 / 100 and
    50 * 200 / 100. *)
Example moveVelocity_two_ratios :
  issued (snd (moveVelocity in_degrees in_rpm group_12 50%float two_ratios))
  = [CmdMoveVelocity 1 50%float; CmdMoveVelocity 2 100%float].
Proof. vm_compute. reflexivity. Qed.

(** A group whose only member cannot read its angle. *)
Definition one_unreadable : World :=
  world_of [(1, motor_failing OpGetAngle RED HOLD 10%float)].

Lemma getAngle_all_errors_and_divisor_witness :
  fst (fst (getAngle in_degrees in_rpm (MotorGroup_new [1] (in_rpm 100)) one_unreadable))
  = INFINITY_angle in_degrees /\
  0 < 2.
Proof.
  split.
  - apply (proj1 (getAngle_all_errors_and_divisor in_degrees in_rpm
                    (MotorGroup_new [1] (in_rpm 100)) one_unreadable)).
    vm_compute. reflexivity.
  - apply (proj2 (getAngle_all_errors_and_divisor in_degrees in_rpm
                    group_12 two_ratios) 2).
    vm_compute. reflexivity.
Defined.

Lemma addMotor_duplicate_rejected_witness :
  let r := addMotor in_degrees group_12 (-1) two_ratios in
  fst (fst r) = INT_MAX /\
  errno (snd r) = EEXIST /\
  snd (fst r) = group_12 /\
  devices (snd r) = devices two_ratios /\
  issued (snd r) = issued two_ratios.
Proof.
  apply (addMotor_duplicate_rejected in_degrees group_12 (-1) two_ratios).
  exists (1, true). split; [left; reflexivity | reflexivity].
Defined.

(** Adding port 3 to the group of ports 1 and 2, then removing port 1. *)
Lemma reachable_int8_distinct_ports_witness :
  distinct_ports
    (removeMotor (snd (fst (addMotor in_degrees group_12 3 two_ratios))) 1).
Proof.
  apply (reachable_int8_distinct_ports in_degrees).
  apply reachable_int8_remove, reachable_int8_add;
    [apply reachable_int8_new | unfold is_int8; lia].
  cbn [map Z.abs].
  repeat constructor; cbn [In]; intuition discriminate.
Defined.

(** C9 as stated fails: a constructor given port 1 and port -1 (the same
    port, reversed) tracks the absolute port 1 twice, and so does [addMotor]
    with port 257 on a group that tracks port 1, since 257 passes the
    duplicate test as an [int] and is stored as the [int8_t] 1. *)
Lemma duplicate_ports_counterexample :
  let g := MotorGroup_new [1; -1] (in_rpm 100) in
  let g' := snd (fst (addMotor in_degrees (MotorGroup_new [1] (in_rpm 100))
                               257 two_ratios)) in
  (reachable in_degrees g /\ ~ distinct_ports g) /\
  (reachable in_degrees g' /\ m_motors g' = [(1, true); (1, true)]
   /\ ~ distinct_ports g').
Proof.
  cbv zeta. split; [split | split; [| split]].
  - apply reachable_new.
  - unfold distinct_ports. cbn [MotorGroup_new m_motors map fst Z.abs].
    intro H. inversion H as [|x l Hnin _]; subst. apply Hnin. now left.
  - apply reachable_add, reachable_new.
  - vm_compute. reflexivity.
  - unfold distinct_ports.
    replace (m_motors (snd (fst (addMotor in_degrees (MotorGroup_new [1] (in_rpm 100))
                                          257 two_ratios))))
      with [(1, true); (1, true)] by (vm_compute; reflexivity).
    cbn [map fst Z.abs].
    intro H. inversion H as [|x l Hnin _]; subst. apply Hnin. now left.
Qed.

(** *** Reconnection *)

(** Port 1 is connected; port 2, flagged as disconnected, is installed
    again. *)
Definition tracked_12 : list (Z * bool) := [(1, true); (2, false)].

Definition reconnecting : World :=
  world_of [(1, motor_with GREEN HOLD 40%float); (2, motor_with RED COAST 0%float)].

Example getMotors_reconnection_edge_run :
  fst (getMotors_loop in_degrees [(1, true)] [(2, false)] [1] reconnecting)
  = ([1; 2], [(1, true); (2, true)]).
Proof.
  destruct (getMotors_reconnection_edge in_degrees [(1, true)] [] 2 [1]
              reconnecting eq_refl) as [E _].
  rewrite E. vm_compute. reflexivity.
Defined.

(** C4 as stated fails: port 2 is installed again but its cartridge cannot
    be read, [configureMotor] returns 1, and [getMotors] leaves the flag of
    port 2 as disconnected. *)
Definition reconnecting_unreadable : World :=
  world_of [(1, motor_with GREEN HOLD 40%float);
            (2, motor_failing OpGetCartridge RED COAST 0%float)].

Lemma reconnection_flag_counterexample :
  let g := mkMotorGroup tracked_12 (in_rpm 100) in
  installed (dev reconnecting_unreadable 2) = true /\
  fst (configureMotor in_degrees (m_motors g) 2 reconnecting_unreadable) = 1 /\
  m_motors (snd (fst (getMotors in_degrees g reconnecting_unreadable)))
  = [(1, true); (2, false)] /\
  fst (fst (getMotors in_degrees g reconnecting_unreadable)) = [1].
Proof. cbv zeta. repeat split; vm_compute; reflexivity. Qed.

(** C2 on a concrete reconnection.  The output shaft turns at 100 rpm.  The
    peer, port 1, has a 200 rpm cartridge and reads 40 degrees, which is 20
    degrees of the output shaft; the reconnected motor, port 2, has a
    100 rpm cartridge, so it should be set to 20 degrees.  [configureMotor]
    sets it to 40. *)
Theorem configureMotor_ignores_gear_ratios :
  let w' := snd (configureMotor in_degrees tracked_12 2 reconnecting) in
  issued w' = [CmdSetBrakeMode 1 HOLD; CmdSetAngle 2 40%float] /\
  angle (dev w' 2) = 40%float /\
  geared_peer_mean in_degrees in_rpm (in_rpm 100) reconnecting tracked_12 2
  = 20%float /\
  fst (fst (getAngle in_degrees in_rpm (mkMotorGroup tracked_12 (in_rpm 100))
                     reconnecting))
  = 30%float.
Proof. cbv zeta. repeat split; vm_compute; reflexivity. Qed.

(** The brake mode the specification asks [configureMotor] to copy: that of
    the first other tracked member that reports a valid one. *)
Fixpoint first_valid_brakeMode (w : World) (motors : list (Z * bool)) (port : Z)
  : option BrakeMode :=
  match motors with
  | [] => None
  | pr :: rest =>
      if same_port port pr then first_valid_brakeMode w rest port
      else if BrakeMode_is_INVALID (Motor.read_brakeMode (dev w (fst pr)))
           then first_valid_brakeMode w rest port
           else Some (Motor.read_brakeMode (dev w (fst pr)))
  end.

(** Ports 3 and 2 are tracked and nothing is plugged in ports 0 and 1. *)
Definition tracked_32 : list (Z * bool) := [(3, true); (2, false)].

Definition reconnecting_32 : World :=
  world_of [(3, motor_with RED HOLD 0%float); (2, motor_with RED COAST 0%float)].

(** C3 on concrete reconnections.  With ports 3 and 2 tracked, the first
    other member with a valid brake mode is port 3, in HOLD, but
    [configureMotor] sets no brake mode and port 2 stays in COAST: the motor
    objects of its first loop are built from the flags, ports 1 and 0.  With
    ports 1 and 2 tracked, the brake mode of port 1 is written back to port 1
    and port 2 stays in COAST all the same. *)
Theorem configureMotor_copies_no_brake_mode :
  let w32 := snd (configureMotor in_degrees tracked_32 2 reconnecting_32) in
  let w12 := snd (configureMotor in_degrees tracked_12 2 reconnecting) in
  (first_valid_brakeMode reconnecting_32 tracked_32 2 = Some HOLD /\
   issued w32 = [CmdSetAngle 2 0%float] /\
   brakeMode (dev w32 2) = COAST) /\
  (first_valid_brakeMode reconnecting tracked_12 2 = Some HOLD /\
   issued w12 = [CmdSetBrakeMode 1 HOLD; CmdSetAngle 2 40%float] /\
   brakeMode (dev w12 2) = COAST).
Proof. cbv zeta. repeat split; vm_compute; reflexivity. Qed.

(** * Further properties of the group *)

(** ** configureMotor: what it returns, sends and changes *)

Section ConfigureEffects.

Variable from_stDeg : float -> float.

(** The command of the first loop of [configureMotor]: the brake mode read
    on the first motor object (port 1 or 0) that reports one, written back
    to that same object. *)
Fixpoint brake_commands (w : World) (motors : list (Z * bool)) : list Command :=
  match motors with
  | [] => []
  | pr :: rest =>
      let m := if snd pr then 1 else 0 in
      if BrakeMode_is_INVALID (Motor.read_brakeMode (dev w m))
      then brake_commands w rest
      else [CmdSetBrakeMode m (Motor.read_brakeMode (dev w m))]
  end.

(** A device with another angle. *)
Definition with_angle (d : Device) (a : float) : Device :=
  mkDevice (installed d) (fails d) (brakeMode d) (cartridge d) a.

Lemma brake_commands_devices w w' l :
  devices w' = devices w -> brake_commands w' l = brake_commands w l.
Proof.
  intro D. induction l as [|pr rest IH]; cbn [brake_commands]; auto.
  unfold dev. now rewrite D, IH.
Qed.

Lemma configure_brake_issued l s w :
  issued (snd (configure_brake l s w)) = issued w ++ brake_commands w l.
Proof.
  revert w. induction l as [|pr rest IH]; intro w; cbn [configure_brake brake_commands].
  - cbn. now rewrite app_nil_r.
  - rewrite bind_run, getBrakeMode_fst.
    set (m := if snd pr then 1 else 0).
    set (w1 := snd (Motor.getBrakeMode m w)).
    assert (D1 : devices w1 = devices w) by apply getBrakeMode_devices.
    assert (I1 : issued w1 = issued w) by apply getBrakeMode_issued.
    destruct (BrakeMode_is_INVALID (Motor.read_brakeMode (dev w m))).
    + now rewrite IH, I1, (brake_commands_devices _ _ _ D1).
    + rewrite bind_run.
      assert (I2 : issued (snd (Motor.setBrakeMode m (Motor.read_brakeMode (dev w m)) w1))
                   = issued w1 ++ [CmdSetBrakeMode m (Motor.read_brakeMode (dev w m))])
        by apply command_issued.
      rewrite <- I1, <- I2.
      now destruct (fst (Motor.setBrakeMode m (Motor.read_brakeMode (dev w m)) w1) =? 0).
Qed.

(** [configureMotor] ends with [setAngle] of the mean of the peers' own
    readings, run in a world whose devices are those of the start. *)
Lemma configureMotor_run motors port w :
  exists w2,
    (forall q, devices w2 q = devices w q) /\
    issued w2 = issued w ++ brake_commands w motors /\
    snd (configureMotor from_stDeg motors port w)
    = snd (Motor.setAngle (to_int8 port)
             (raw_peer_mean from_stDeg w motors port) w2).
Proof.
  unfold configureMotor. rewrite bind_run.
  pose proof (configure_brake_devices motors true w) as D0.
  pose proof (configure_brake_issued motors true w) as I0.
  set (w0 := snd (configure_brake motors true w)) in *.
  rewrite bind_run.
  set (w1 := snd (Motor.getCartridge (to_int8 port) w0)).
  assert (D1 : forall q, devices w1 q = devices w q)
    by (intro q; unfold w1; now rewrite getCartridge_devices).
  assert (I1 : issued w1 = issued w ++ brake_commands w motors)
    by (unfold w1; now rewrite getCartridge_issued).
  assert (E1 : forall q, dev w1 q = dev w q) by (intro q; apply D1).
  rewrite bind_run, configure_peers_spec. cbn [fst snd]. rewrite bind_run.
  assert (P : peers_of w1 motors port = peers_of w motors port).
  { unfold peers_of. f_equal. apply filter_ext. intro pr. now rewrite E1. }
  rewrite P.
  set (ps := peers_of w motors port).
  rewrite (configure_sum_spec from_stDeg ps (zero_angle from_stDeg) 0 w1).
  rewrite (filter_ext _ (fun m => valid_reading from_stDeg (dev w m)))
    by (intro q; now rewrite E1).
  rewrite (map_ext _ (fun m => Motor.read_angle from_stDeg (dev w m)))
    by (intro q; now rewrite E1).
  destruct (configure_sum_devices from_stDeg ps (zero_angle from_stDeg) 0 w1)
    as [D2 I2].
  set (w2 := snd (configure_sum from_stDeg ps (zero_angle from_stDeg) 0 w1)) in *.
  rewrite bind_run.
  set (valid := filter (fun m => valid_reading from_stDeg (dev w m)) ps).
  assert (Hle : (length valid <= length ps)%nat) by apply filter_length_le.
  match goal with |- context [Motor.setAngle (to_int8 port) ?a w2] =>
    assert (Ea : a = raw_peer_mean from_stDeg w motors port) end.
  { unfold raw_peer_mean. fold ps valid.
    destruct valid as [|v vs] eqn:Ev.
    - cbn [length]. replace (Z.of_nat (length ps) =? 0 + Z.of_nat (length ps) - Z.of_nat 0)
        with true by (symmetry; apply Z.eqb_eq; lia).
      reflexivity.
    - replace (Z.of_nat (length ps)
               =? 0 + Z.of_nat (length ps) - Z.of_nat (length (v :: vs)))
        with false by (symmetry; apply Z.eqb_neq; cbn [length]; lia).
      cbn [negb]. do 2 f_equal. lia. }
  rewrite Ea.
  exists w2. split; [| split].
  - intro q. rewrite D2. apply D1.
  - now rewrite I2.
  - now destruct (fst (Motor.setAngle (to_int8 port)
                         (raw_peer_mean from_stDeg w motors port) w2) =? INT_MAX).
Qed.

(** X1. [configureMotor] returns 0 or 1 and never INT_MAX.  It returns 0
    whenever [setAngle] fails on the motor; when [setAngle] succeeds it
    returns 0 if the first loop met no failing [setBrakeMode] and the
    cartridge of the motor can be read, and 1 otherwise. *)
Theorem configureMotor_return_value (motors : list (Z * bool)) (port : Z) (w : World) :
  let r := fst (configureMotor from_stDeg motors port w) in
  let d := dev w (to_int8 port) in
  r = (if fails d OpSetAngle then 0
       else if brake_outcome w motors true
               && negb (Cartridge_is_INVALID (Motor.read_cartridge d))
            then 0 else 1) /\
  (r = 0 \/ r = 1) /\
  r <> INT_MAX.
Proof.
  cbv zeta. destruct (configureMotor_spec from_stDeg motors port w) as [R _].
  rewrite R. unfold configure_result.
  destruct (fails (dev w (to_int8 port)) OpSetAngle).
  - repeat split; [now left | discriminate].
  - destruct (brake_outcome w motors true
              && negb (Cartridge_is_INVALID (Motor.read_cartridge (dev w (to_int8 port))))).
    + repeat split; [now left | discriminate].
    + repeat split; [now right | discriminate].
Qed.

(** X2. The commands [configureMotor] sends are, in order: at most one
    [setBrakeMode], on port 1 or 0, with the brake mode just read there; then
    exactly one [setAngle] on the motor, with the mean of the angles the
    other installed members report in their own frames (or [0_stDeg] when
    none reports one). *)
Theorem configureMotor_commands (motors : list (Z * bool)) (port : Z) (w : World) :
  issued (snd (configureMotor from_stDeg motors port w))
  = issued w ++ brake_commands w motors
    ++ [CmdSetAngle (to_int8 port) (raw_peer_mean from_stDeg w motors port)].
Proof.
  destruct (configureMotor_run motors port w) as (w2 & _ & I & E).
  rewrite E. unfold Motor.setAngle. rewrite command_issued, I.
  now rewrite <- app_assoc.
Qed.

(** X3. [configureMotor] changes one thing in the hardware: the angle of the
    motor it configures, and only if [setAngle] does not fail on it.  Every
    other device, and every other field of that motor, stays as it was. *)
Theorem configureMotor_frame (motors : list (Z * bool)) (port : Z) (w : World) (q : Z) :
  devices (snd (configureMotor from_stDeg motors port w)) q
  = if (q =? Z.abs (to_int8 port))
       && negb (fails (dev w (to_int8 port)) OpSetAngle)
    then with_angle (devices w q) (raw_peer_mean from_stDeg w motors port)
    else devices w q.
Proof.
  destruct (configureMotor_run motors port w) as (w2 & D & _ & E).
  rewrite E. unfold Motor.setAngle, Motor.command.
  assert (Ed : dev w2 (to_int8 port) = dev w (to_int8 port)) by apply D.
  rewrite Ed.
  destruct (fails (dev w (to_int8 port)) OpSetAngle);
    cbn [snd set_errno set_device issue devices negb].
  - rewrite andb_false_r. apply D.
  - rewrite andb_true_r.
    destruct (q =? Z.abs (to_int8 port)) eqn:Eq; [| apply D].
    apply Z.eqb_eq in Eq. subst q. reflexivity.
Qed.

End ConfigureEffects.

(** ** getMotors: flags, working set and effects *)

Section WorkingSet.

Variable from_stDeg : float -> float.
Variable from_rpm : Z -> float.

(** The same members: the same ports in the same order, and the same output
    velocity; only flags may differ. *)
Definition same_members (g g' : MotorGroup) : Prop :=
  map fst (m_motors g') = map fst (m_motors g) /\
  m_outputVelocity g' = m_outputVelocity g.

Lemma visit_ports w todo done : map fst (visit w done todo) = map fst todo.
Proof.
  revert done. induction todo as [|pr rest IH]; intro done; cbn [visit map]; auto.
  rewrite IH. f_equal. unfold visit_pair.
  destruct (negb (installed (dev w (fst pr)))); [reflexivity |].
  now destruct (negb (snd pr)).
Qed.

Lemma getMotors_members g w :
  same_members g (snd (fst (getMotors from_stDeg g w))).
Proof.
  destruct (getMotors_spec from_stDeg g w) as [R _]. rewrite R.
  split; cbn [snd m_motors m_outputVelocity]; [apply visit_ports | reflexivity].
Qed.

Lemma same_members_trans g1 g2 g3 :
  same_members g1 g2 -> same_members g2 g3 -> same_members g1 g3.
Proof. intros [A B] [C D]. split; congruence. Qed.

Ltac after_getMotors H :=
  rewrite !bind_run;
  match goal with
  | |- context [fst (getMotors ?f ?g ?w)] =>
      destruct (fst (getMotors f g w)) as [? ?]
  end;
  cbn [fst snd] in *; rewrite ?bind_run; exact H.

(** X4. No aggregation call adds, removes, reorders or renames a member, or
    changes the output velocity: after [getMotors], [move], [moveVelocity],
    [brake], [setBrakeMode], [getBrakeModes], [isConnected], [getSize],
    [getAngle] and [setAngle] the group tracks the same ports in the same
    order; only flags change. *)
Theorem aggregation_keeps_members (g : MotorGroup) (w : World)
        (percent velocity a : float) (mode : BrakeMode) :
  same_members g (snd (fst (getMotors from_stDeg g w))) /\
  same_members g (snd (fst (move from_stDeg g percent w))) /\
  same_members g (snd (fst (moveVelocity from_stDeg from_rpm g velocity w))) /\
  same_members g (snd (fst (brake from_stDeg g w))) /\
  same_members g (snd (fst (setBrakeMode from_stDeg g mode w))) /\
  same_members g (snd (fst (getBrakeModes from_stDeg g w))) /\
  same_members g (snd (fst (isConnected from_stDeg g w))) /\
  same_members g (snd (fst (getSize from_stDeg g w))) /\
  same_members g (snd (fst (getAngle from_stDeg from_rpm g w))) /\
  same_members g (snd (fst (setAngle from_stDeg from_rpm g a w))).
Proof.
  assert (Hsize : forall g0 w0, same_members g0 (snd (fst (getSize from_stDeg g0 w0)))).
  { intros g0 w0. pose proof (getMotors_members g0 w0) as H.
    unfold getSize. rewrite !bind_run.
    destruct (fst (getMotors from_stDeg g0 w0)) as [ms g1].
    rewrite bind_run. exact H. }
  pose proof (getMotors_members g w) as H.
  split; [exact H |].
  split; [unfold move; after_getMotors H |].
  split; [unfold moveVelocity; after_getMotors H |].
  split; [unfold brake; after_getMotors H |].
  split; [unfold setBrakeMode; after_getMotors H |].
  split; [unfold getBrakeModes; after_getMotors H |].
  split; [unfold isConnected; after_getMotors H |].
  split; [apply Hsize |].
  split; [| unfold setAngle; after_getMotors H].
  unfold getAngle. rewrite !bind_run.
  destruct (fst (getMotors from_stDeg g w)) as [ms g1]. cbn [fst snd] in *.
  rewrite bind_run.
  match goal with
  | |- context [getAngle_loop ?f ?r ?O ?l ?z ?e ?w0] =>
      destruct (fst (getAngle_loop f r O l z e w0)) as [s errs];
      set (w2 := snd (getAngle_loop f r O l z e w0))
  end.
  destruct (errs =? Z.of_nat (length ms)); [exact H |].
  rewrite bind_run. pose proof (Hsize g1 w2) as Hs.
  destruct (fst (getSize from_stDeg g1 w2)) as [size g2]. cbn [fst snd ret] in *.
  eapply same_members_trans; eauto.
Qed.

Lemma visit_facts w todo done :
  forallb (fun pr => implb (snd pr) (installed (dev w (fst pr))))
          (visit w done todo) = true /\
  forallb (fun m => installed (dev w m)) (flagged (visit w done todo)) = true /\
  length (visit w done todo) = length todo /\
  forallb (fun oldnew =>
             implb (snd (fst oldnew) && installed (dev w (fst (fst oldnew))))
                   (snd (snd oldnew)))
          (combine todo (visit w done todo)) = true.
Proof.
  revert done. induction todo as [|pr rest IH]; intro done.
  - repeat split.
  - cbn [visit]. destruct (IH (done ++ [visit_pair w (done ++ pr :: rest) pr]))
      as (A & B & C & D).
    set (pr' := visit_pair w (done ++ pr :: rest) pr) in *.
    assert (Hi : implb (snd pr') (installed (dev w (fst pr'))) = true).
    { pose proof (visit_pair_installed w (done ++ pr :: rest) pr) as H.
      fold pr' in H. destruct (snd pr'); [now rewrite H | reflexivity]. }
    assert (Hk : implb (snd pr && installed (dev w (fst pr))) (snd pr') = true).
    { subst pr'. unfold visit_pair.
      destruct (installed (dev w (fst pr))); cbn [negb];
        [| now rewrite andb_false_r].
      now destruct (snd pr). }
    repeat split.
    + cbn [forallb]. now rewrite Hi, A.
    + destruct pr' as [q b] eqn:E. cbn [fst snd] in *.
      rewrite flagged_cons. destruct b; [| exact B].
      cbn [forallb]. rewrite B. cbn [implb] in Hi. now rewrite Hi.
    + cbn [length]. now rewrite C.
    + cbn [combine forallb fst snd]. now rewrite Hk, D.
Qed.

(** X5. After [getMotors] the working set is the list of the ports flagged
    as connected, in the order of the vector; a pair is flagged as connected
    only if its motor is installed; and a pair that was flagged as connected
    and whose motor is installed stays so. *)
Theorem getMotors_flags (g : MotorGroup) (w : World) :
  let motors := fst (fst (getMotors from_stDeg g w)) in
  let g' := snd (fst (getMotors from_stDeg g w)) in
  motors = map fst (filter snd (m_motors g')) /\
  forallb (fun pr => implb (snd pr) (installed (dev w (fst pr)))) (m_motors g') = true /\
  forallb (fun m => installed (dev w m)) motors = true /\
  length (m_motors g') = length (m_motors g) /\
  forallb (fun oldnew =>
             implb (snd (fst oldnew) && installed (dev w (fst (fst oldnew))))
                   (snd (snd oldnew)))
          (combine (m_motors g) (m_motors g')) = true.
Proof.
  cbv zeta. destruct (getMotors_spec from_stDeg g w) as [R _]. rewrite R.
  cbn [fst snd m_motors]. split; [reflexivity |].
  apply visit_facts.
Qed.

(** No pair is a reconnection edge: each is flagged as connected or its
    motor is not installed. *)
Definition no_reconnection (w : World) (motors : list (Z * bool)) : bool :=
  forallb (fun pr => snd pr || negb (installed (dev w (fst pr)))) motors.

Lemma getMotors_loop_no_reconnection w todo done ms :
  no_reconnection w todo = true ->
  getMotors_loop from_stDeg done todo ms w
  = ((ms ++ map fst (filter (fun pr => installed (dev w (fst pr))) todo),
      done ++ map (fun pr => (fst pr, installed (dev w (fst pr)))) todo), w).
Proof.
  revert done ms. induction todo as [|[p f] rest IH]; intros done ms H.
  - cbn. now rewrite !app_nil_r.
  - cbn [no_reconnection forallb fst snd] in H.
    apply andb_true_iff in H as [Hp Hrest].
    cbn [getMotors_loop filter map fst snd]. rewrite bind_run, is_installed_run.
    cbn [fst snd].
    destruct (installed (dev w p)) eqn:Ei; cbn [negb].
    + destruct f; [| now rewrite orb_false_r in Hp].
      cbn [negb]. rewrite (IH _ _ Hrest). cbn [map fst].
      now rewrite <- !app_assoc.
    + rewrite (IH _ _ Hrest). now rewrite <- !app_assoc.
Qed.

(** X6. [getMotors] touches the hardware on a reconnection edge only: when
    every pair is flagged as connected or has its motor not installed, the
    call sends no command and leaves the world as it is; the working set is
    the installed ports and each flag becomes whether its motor is
    installed. *)
Theorem getMotors_without_reconnection (g : MotorGroup) (w : World) :
  no_reconnection w (m_motors g) = true ->
  getMotors from_stDeg g w
  = ((map fst (filter (fun pr => installed (dev w (fst pr))) (m_motors g)),
      mkMotorGroup (map (fun pr => (fst pr, installed (dev w (fst pr)))) (m_motors g))
                   (m_outputVelocity g)),
     w).
Proof.
  intro H. unfold getMotors. unfold bind.
  now rewrite (getMotors_loop_no_reconnection w (m_motors g) [] [] H).
Qed.

(** X7. When the working set is not empty, calling [getMotors] again right
    after returns the same working set and the same flags: a member that
    failed its reconfiguration fails it again, and no member is lost. *)
Theorem getMotors_twice (g : MotorGroup) (w : World) :
  fst (fst (getMotors from_stDeg g w)) <> [] ->
  let r1 := getMotors from_stDeg g w in
  fst (getMotors from_stDeg (snd (fst r1)) (snd r1)) = fst r1.
Proof.
  intro Hne. cbv zeta. apply getMotors_again; [| exact Hne].
  apply (getMotors_spec from_stDeg g w).
Qed.

(** X8. [getSize] is the size of the working set of its [getMotors] call:
    every member of the working set is installed, and an installed motor
    never answers 0 to [isConnected].  It lies between 0 and the number of
    tracked pairs. *)
Theorem getSize_is_working_set_size (g : MotorGroup) (w : World) :
  fst (fst (getSize from_stDeg g w))
  = Z.of_nat (length (fst (fst (getMotors from_stDeg g w)))) /\
  0 <= fst (fst (getSize from_stDeg g w)) <= Z.of_nat (length (m_motors g)).
Proof.
  assert (E : fst (fst (getSize from_stDeg g w))
              = Z.of_nat (length (fst (fst (getMotors from_stDeg g w))))).
  { unfold getSize. rewrite bind_run.
    destruct (getMotors_spec from_stDeg g w) as [_ S].
    pose proof (getMotors_installed from_stDeg g w) as Hin.
    set (w1 := snd (getMotors from_stDeg g w)) in *.
    destruct (fst (getMotors from_stDeg g w)) as [motors g1]. cbn [fst snd] in *.
    rewrite bind_run. destruct (getSize_loop_spec motors 0 w1) as (R & _).
    rewrite R. cbn [ret fst]. rewrite filter_all; [lia |].
    intros m Hm. apply installed_counts_as_connected.
    rewrite (same_config_installed _ _ m (same_static_config _ _ S)).
    now apply Hin. }
  split; [exact E |]. rewrite E.
  destruct (getMotors_spec from_stDeg g w) as [R _]. rewrite R. cbn [fst].
  unfold flagged. rewrite length_map.
  pose proof (filter_length_le snd (visit w [] (m_motors g))) as Hle.
  rewrite visit_length in Hle. lia.
Qed.

End WorkingSet.

(** ** Commands and feedback: what is sent, stored and returned *)

Section Broadcasts.

Variable from_stDeg : float -> float.
Variable from_rpm : Z -> float.

Lemma broadcast_issued (op : Z -> HW Z) (mk : Z -> Command) :
  (forall m w, issued (snd (op m w)) = issued w ++ [mk m]) ->
  forall motors s w,
    issued (snd (broadcast op motors s w)) = issued w ++ map mk motors.
Proof.
  intro Hiss. induction motors as [|m rest IH]; intros s w.
  - cbn. now rewrite app_nil_r.
  - cbn [broadcast map]. rewrite bind_run, IH, Hiss.
    now rewrite <- app_assoc.
Qed.

(** X9. [move], [brake] and [setBrakeMode] call the driver once on every
    member of the working set, in order and with the argument unchanged,
    whether or not earlier members failed. *)
Theorem group_commands_issued (g : MotorGroup) (w : World)
        (percent : float) (mode : BrakeMode) :
  let motors := fst (fst (getMotors from_stDeg g w)) in
  let w1 := snd (getMotors from_stDeg g w) in
  issued (snd (move from_stDeg g percent w))
  = issued w1 ++ map (fun m => CmdMove m percent) motors /\
  issued (snd (brake from_stDeg g w))
  = issued w1 ++ map CmdBrake motors /\
  issued (snd (setBrakeMode from_stDeg g mode w))
  = issued w1 ++ map (fun m => CmdSetBrakeMode m mode) motors.
Proof.
  cbv zeta. unfold move, brake, setBrakeMode. rewrite !bind_run.
  set (w1 := snd (getMotors from_stDeg g w)).
  destruct (fst (getMotors from_stDeg g w)) as [motors g1]. cbn [fst snd].
  rewrite !bind_run. cbn [ret snd].
  split; [| split].
  - apply (broadcast_issued (fun m => Motor.move m percent)
                            (fun m => CmdMove m percent)).
    intros; apply command_issued.
  - apply (broadcast_issued Motor.brake CmdBrake).
    intros; apply command_issued.
  - apply (broadcast_issued (fun m => Motor.setBrakeMode m mode)
                            (fun m => CmdSetBrakeMode m mode)).
    intros; apply command_issued.
Qed.

(** The members to which a geared command is sent and on which the driver
    operation [o] does not fail. *)
Definition geared_successes (o : DriverOp) (w : World) (motors : list Z) : nat :=
  length (filter (fun m => has_cartridge (dev w m) && negb (fails (dev w m) o))
                 motors).

Lemma broadcast_geared_result (op : Z -> float -> HW Z) (o : DriverOp) :
  (forall m x w, fst (op m x w) = if fails (dev w m) o then INT_MAX else 0) ->
  (forall m x w, same_config w (snd (op m x w))) ->
  forall O x motors s w,
    fst (broadcast_geared from_rpm op O x motors s w)
    = (s || existsb (fun m => has_cartridge (dev w m) && negb (fails (dev w m) o))
                    motors).
Proof.
  intros Hfst Hcfg O x. induction motors as [|m rest IH]; intros s w.
  - cbn. now rewrite orb_false_r.
  - cbn [broadcast_geared existsb]. rewrite bind_run, getCartridge_fst.
    set (w1 := snd (Motor.getCartridge m w)).
    assert (C1 : same_config w w1)
      by (apply same_static_config, same_devices_static, getCartridge_devices).
    assert (E : forall w', same_config w w' ->
              existsb (fun m => has_cartridge (dev w' m) && negb (fails (dev w' m) o)) rest
              = existsb (fun m => has_cartridge (dev w m) && negb (fails (dev w m) o)) rest).
    { intros w' C. apply existsb_same. intro q. unfold has_cartridge.
      now rewrite (same_config_read_cartridge _ _ _ C), (same_config_fails _ _ _ C). }
    destruct (Cartridge_is_INVALID (Motor.read_cartridge (dev w m))) eqn:Ec.
    + assert (Hc : has_cartridge (dev w m) = false)
        by (unfold has_cartridge; now rewrite Ec).
      rewrite Hc. cbn [andb orb]. now rewrite IH, (E _ C1).
    + assert (Hc : has_cartridge (dev w m) = true)
        by (unfold has_cartridge; now rewrite Ec).
      rewrite Hc. cbn [andb]. rewrite bind_run.
      match goal with |- context [op m ?v w1] => set (w2 := snd (op m v w1));
        assert (C2 : same_config w w2)
          by (eapply same_config_trans; [exact C1 | apply Hcfg]);
        rewrite IH, (E _ C2), Hfst end.
      rewrite (same_config_fails _ _ _ C1).
      destruct (fails (dev w m) o), s; cbn; auto using orb_true_r.
Qed.

Lemma best_effort_of_exists (f : Z -> bool) (motors : list Z) :
  best_effort (if false || existsb f motors then 0 else INT_MAX)
              (length (filter f motors)).
Proof.
  unfold best_effort. cbn [orb].
  induction motors as [|m rest [IH1 IH2]]; cbn [existsb filter length].
  - split; [split; [discriminate | lia] | reflexivity].
  - destruct (f m); cbn [orb length].
    + split; [split; [lia | reflexivity] | discriminate].
    + split; assumption.
Qed.

(** X10. [moveVelocity] and [setAngle] return 0 exactly when some member of
    the working set has a readable cartridge and accepts the command, and
    INT_MAX otherwise: a member whose cartridge reads as INVALID cannot make
    the call succeed. *)
Theorem geared_commands_best_effort (g : MotorGroup) (w : World) (velocity a : float) :
  let motors := fst (fst (getMotors from_stDeg g w)) in
  let w1 := snd (getMotors from_stDeg g w) in
  best_effort (fst (fst (moveVelocity from_stDeg from_rpm g velocity w)))
              (geared_successes OpMoveVelocity w1 motors) /\
  best_effort (fst (fst (setAngle from_stDeg from_rpm g a w)))
              (geared_successes OpSetAngle w1 motors).
Proof.
  cbv zeta. unfold moveVelocity, setAngle, geared_successes. rewrite !bind_run.
  set (w1 := snd (getMotors from_stDeg g w)).
  destruct (fst (getMotors from_stDeg g w)) as [motors g1]. cbn [fst snd].
  rewrite !bind_run. cbn [ret fst].
  split.
  - rewrite (broadcast_geared_result Motor.moveVelocity OpMoveVelocity);
      [| intros; apply command_fst | intros; apply command_config; auto].
    apply (best_effort_of_exists
             (fun m => has_cartridge (dev w1 m)
                       && negb (fails (dev w1 m) OpMoveVelocity))).
  - rewrite (broadcast_geared_result Motor.setAngle OpSetAngle);
      [| intros; apply command_fst | intros; apply command_config; auto].
    apply (best_effort_of_exists
             (fun m => has_cartridge (dev w1 m)
                       && negb (fails (dev w1 m) OpSetAngle))).
Qed.

End Broadcasts.

(** ** What the group stores in its members *)

Section Stores.

Variable from_stDeg : float -> float.
Variable from_rpm : Z -> float.

Lemma setAngle_devices p a w q :
  devices (snd (Motor.setAngle p a w)) q
  = if (q =? Z.abs p) && negb (fails (dev w p) OpSetAngle)
    then with_angle (devices w q) a else devices w q.
Proof.
  unfold Motor.setAngle, Motor.command.
  destruct (fails (dev w p) OpSetAngle); cbn [snd set_errno set_device issue devices negb].
  - now rewrite andb_false_r.
  - rewrite andb_true_r. destruct (q =? Z.abs p) eqn:E; [| reflexivity].
    apply Z.eqb_eq in E. now subst q.
Qed.

Lemma setBrakeMode_devices p mode w q :
  brakeMode (devices (snd (Motor.setBrakeMode p mode w)) q)
  = if (q =? Z.abs p) && negb (fails (dev w p) OpSetBrakeMode)
    then mode else brakeMode (devices w q).
Proof.
  unfold Motor.setBrakeMode, Motor.command.
  destruct (fails (dev w p) OpSetBrakeMode);
    cbn [snd set_errno set_device issue devices negb].
  - now rewrite andb_false_r.
  - rewrite andb_true_r. now destruct (q =? Z.abs p).
Qed.

(** Whether some motor of [motors] is a motor object of the device [q] that
    accepts the operation [o]. *)
Definition accepted_on (o : DriverOp) (w : World) (q : Z) (motors : list Z) : bool :=
  existsb (fun m => (Z.abs m =? q) && negb (fails (dev w m) o)) motors.

Lemma accepted_on_config o w w' q motors :
  same_config w w' -> accepted_on o w' q motors = accepted_on o w q motors.
Proof.
  intro C. apply existsb_same. intro m.
  now rewrite (same_config_fails _ _ _ C).
Qed.

Lemma broadcast_setBrakeMode_modes mode motors s w q :
  brakeMode (devices (snd (broadcast (fun m => Motor.setBrakeMode m mode) motors s w)) q)
  = if accepted_on OpSetBrakeMode w q motors then mode
    else brakeMode (devices w q).
Proof.
  revert s w. induction motors as [|m rest IH]; intros s w; [reflexivity |].
  cbn [broadcast]. rewrite bind_run, IH.
  rewrite (accepted_on_config _ _ _ _ _ (setBrakeMode_config m mode w)).
  rewrite setBrakeMode_devices.
  unfold accepted_on at 2. cbn [existsb]. fold (accepted_on OpSetBrakeMode w q rest).
  rewrite (Z.eqb_sym q (Z.abs m)).
  destruct (accepted_on OpSetBrakeMode w q rest); [now rewrite orb_true_r |].
  now rewrite orb_false_r.
Qed.

(** X11. After [setBrakeMode mode], a device holds [mode] exactly when some
    member of the working set is a motor object of it on which the driver's
    [setBrakeMode] does not fail; every other device keeps its brake mode. *)
Theorem setBrakeMode_stored (g : MotorGroup) (mode : BrakeMode) (w : World) (q : Z) :
  let motors := fst (fst (getMotors from_stDeg g w)) in
  let w1 := snd (getMotors from_stDeg g w) in
  brakeMode (devices (snd (setBrakeMode from_stDeg g mode w)) q)
  = if accepted_on OpSetBrakeMode w1 q motors then mode
    else brakeMode (devices w1 q).
Proof.
  cbv zeta. unfold setBrakeMode. rewrite !bind_run.
  set (w1 := snd (getMotors from_stDeg g w)).
  destruct (fst (getMotors from_stDeg g w)) as [motors g1]. cbn [fst snd].
  rewrite !bind_run. cbn [ret snd]. apply broadcast_setBrakeMode_modes.
Qed.

(** Whether some motor of [motors] is a motor object of the device [q] with
    a readable cartridge that accepts [setAngle]. *)
Definition angle_accepted_on (w : World) (q : Z) (motors : list Z) : bool :=
  existsb (fun m => (Z.abs m =? q) && has_cartridge (dev w m)
                    && negb (fails (dev w m) OpSetAngle)) motors.

Lemma angle_accepted_on_config w w' q motors :
  same_config w w' -> angle_accepted_on w' q motors = angle_accepted_on w q motors.
Proof.
  intro C. apply existsb_same. intro m. unfold has_cartridge.
  now rewrite (same_config_fails _ _ _ C), (same_config_read_cartridge _ _ _ C).
Qed.

Lemma gear_ratio_config O w w' q :
  same_config w w' ->
  gear_ratio from_rpm O (devices w' q) = gear_ratio from_rpm O (devices w q).
Proof.
  intro C. unfold gear_ratio, Motor.read_cartridge.
  destruct (C q) as (_ & F & K). now rewrite F, K.
Qed.

Lemma broadcast_geared_setAngle_angles O x motors s w q :
  angle (devices (snd (broadcast_geared from_rpm Motor.setAngle O x motors s w)) q)
  = if angle_accepted_on w q motors
    then PrimFloat.mul x (gear_ratio from_rpm O (devices w q))
    else angle (devices w q).
Proof.
  revert s w. induction motors as [|m rest IH]; intros s w; [reflexivity |].
  cbn [broadcast_geared]. rewrite bind_run, getCartridge_fst.
  set (w1 := snd (Motor.getCartridge m w)).
  assert (D1 : devices w1 = devices w) by apply getCartridge_devices.
  assert (C1 : same_config w w1)
    by (apply same_static_config; now apply same_devices_static).
  unfold angle_accepted_on at 1. cbn [existsb]. fold (angle_accepted_on w q rest).
  destruct (Cartridge_is_INVALID (Motor.read_cartridge (dev w m))) eqn:Ec.
  - assert (Hc : has_cartridge (dev w m) = false)
      by (unfold has_cartridge; now rewrite Ec).
    rewrite Hc, andb_false_r. cbn [andb orb].
    now rewrite IH, (angle_accepted_on_config _ _ _ _ C1), D1.
  - assert (Hc : has_cartridge (dev w m) = true)
      by (unfold has_cartridge; now rewrite Ec).
    rewrite Hc, andb_true_r. rewrite bind_run.
    fold (gear_ratio from_rpm O (dev w m)).
    set (v := PrimFloat.mul x (gear_ratio from_rpm O (dev w m))).
    set (w2 := snd (Motor.setAngle m v w1)).
    assert (C2 : same_config w w2).
    { eapply same_config_trans; [exact C1 |].
      apply same_static_config, setAngle_static. }
    rewrite IH, (angle_accepted_on_config _ _ _ _ C2), (gear_ratio_config _ _ _ _ C2).
    destruct (angle_accepted_on w q rest); [now rewrite orb_true_r |].
    rewrite orb_false_r. unfold w2. rewrite setAngle_devices.
    rewrite (same_config_fails _ _ _ C1), D1, (Z.eqb_sym q (Z.abs m)).
    destruct ((Z.abs m =? q) && negb (fails (dev w m) OpSetAngle)) eqn:E;
      [| reflexivity].
    apply andb_true_iff in E as [E _]. apply Z.eqb_eq in E. subst q. reflexivity.
Qed.

(** X12. [setAngle a] sends to every member of the working set whose
    cartridge can be read the angle [a] times its gear ratio, and nothing to
    the others; afterwards a device holds [a] times its own gear ratio
    exactly when such a member is a motor object of it that accepts the
    command, and its former angle otherwise. *)
Theorem setAngle_stored (g : MotorGroup) (a : float) (w : World) (q : Z) :
  let motors := fst (fst (getMotors from_stDeg g w)) in
  let w1 := snd (getMotors from_stDeg g w) in
  let w' := snd (setAngle from_stDeg from_rpm g a w) in
  issued w'
  = issued w1
    ++ map (fun m => CmdSetAngle m
                       (PrimFloat.mul a
                          (gear_ratio from_rpm (m_outputVelocity g) (dev w1 m))))
           (filter (fun m => has_cartridge (dev w1 m)) motors) /\
  angle (devices w' q)
  = if angle_accepted_on w1 q motors
    then PrimFloat.mul a (gear_ratio from_rpm (m_outputVelocity g) (devices w1 q))
    else angle (devices w1 q).
Proof.
  cbv zeta. unfold setAngle. rewrite !bind_run.
  set (w1 := snd (getMotors from_stDeg g w)).
  destruct (fst (getMotors from_stDeg g w)) as [motors g1]. cbn [fst snd].
  rewrite !bind_run. cbn [ret snd].
  split; [| apply broadcast_geared_setAngle_angles].
  destruct (broadcast_geared_issued from_rpm Motor.setAngle CmdSetAngle) with
    (O := m_outputVelocity g) (x := a) (motors := motors) (s := false) (w := w1)
    as [R _].
  - intros; apply command_issued.
  - intros; apply command_config; auto.
  - exact R.
Qed.

End Stores.

(** ** Reading the group *)

Section Reads.

Variable from_stDeg : float -> float.
Variable from_rpm : Z -> float.

Lemma getBrakeModes_loop_spec motors w :
  fst (getBrakeModes_loop motors w)
  = map (fun m => Motor.read_brakeMode (dev w m)) motors /\
  devices (snd (getBrakeModes_loop motors w)) = devices w /\
  issued (snd (getBrakeModes_loop motors w)) = issued w.
Proof.
  revert w. induction motors as [|m rest IH]; intro w; [now repeat split |].
  cbn [getBrakeModes_loop map]. rewrite bind_run, getBrakeMode_fst, bind_run.
  set (w1 := snd (Motor.getBrakeMode m w)).
  assert (D1 : devices w1 = devices w) by apply getBrakeMode_devices.
  assert (I1 : issued w1 = issued w) by apply getBrakeMode_issued.
  destruct (IH w1) as (R & D & I). cbn [ret fst snd]. rewrite R.
  repeat split; try congruence.
  f_equal. apply map_ext. intro q. unfold dev. now rewrite D1.
Qed.

Lemma isConnected_loop_world motors w :
  devices (snd (isConnected_loop motors w)) = devices w /\
  issued (snd (isConnected_loop motors w)) = issued w.
Proof.
  revert w. induction motors as [|m rest IH]; intro w; [now split |].
  cbn [isConnected_loop]. rewrite bind_run.
  set (w1 := snd (Motor.isConnected m w)).
  assert (D1 : devices w1 = devices w) by apply isConnected_devices.
  assert (I1 : issued w1 = issued w) by apply isConnected_issued.
  destruct (fst (Motor.isConnected m w) =? 1); [now split |].
  destruct (IH w1) as [D I]. split; congruence.
Qed.

(** X13. [getBrakeModes] returns one brake mode per member of the working
    set, in order: what the member reports, INVALID included for a member
    whose brake mode cannot be read (such a member is not skipped). *)
Theorem getBrakeModes_of_working_set (g : MotorGroup) (w : World) :
  let motors := fst (fst (getMotors from_stDeg g w)) in
  let w1 := snd (getMotors from_stDeg g w) in
  fst (fst (getBrakeModes from_stDeg g w))
  = map (fun m => fst (Motor.getBrakeMode m w1)) motors /\
  length (fst (fst (getBrakeModes from_stDeg g w))) = length motors.
Proof.
  cbv zeta. unfold getBrakeModes. rewrite !bind_run.
  set (w1 := snd (getMotors from_stDeg g w)).
  destruct (fst (getMotors from_stDeg g w)) as [motors g1]. cbn [fst snd].
  rewrite !bind_run. cbn [ret fst].
  destruct (getBrakeModes_loop_spec motors w1) as (R & _). rewrite R.
  split; [reflexivity | apply length_map].
Qed.

(** X14. [isConnected], [getSize] and [getBrakeModes] only read: beyond
    what their call of [getMotors] does, they send no command and change no
    device. *)
Theorem reads_change_nothing (g : MotorGroup) (w : World) :
  let w1 := snd (getMotors from_stDeg g w) in
  (devices (snd (isConnected from_stDeg g w)) = devices w1 /\
   issued (snd (isConnected from_stDeg g w)) = issued w1) /\
  (devices (snd (getSize from_stDeg g w)) = devices w1 /\
   issued (snd (getSize from_stDeg g w)) = issued w1) /\
  (devices (snd (getBrakeModes from_stDeg g w)) = devices w1 /\
   issued (snd (getBrakeModes from_stDeg g w)) = issued w1).
Proof.
  cbv zeta. unfold isConnected, getSize, getBrakeModes. rewrite !bind_run.
  set (w1 := snd (getMotors from_stDeg g w)).
  destruct (fst (getMotors from_stDeg g w)) as [motors g1]. cbn [fst snd].
  rewrite !bind_run. cbn [ret snd].
  split; [apply isConnected_loop_world |].
  split; [apply (getSize_loop_spec motors 0 w1) |].
  apply (getBrakeModes_loop_spec motors w1).
Qed.

(** No tracked motor is installed. *)
Definition all_disconnected (w : World) (motors : list (Z * bool)) : bool :=
  forallb (fun pr => negb (installed (dev w (fst pr)))) motors.

Lemma getMotors_quiet g w :
  no_reconnection w (m_motors g) = true ->
  getMotors from_stDeg g w
  = ((map fst (filter (fun pr => installed (dev w (fst pr))) (m_motors g)),
      mkMotorGroup (map (fun pr => (fst pr, installed (dev w (fst pr)))) (m_motors g))
                   (m_outputVelocity g)),
     w).
Proof.
  intro H. unfold getMotors. unfold bind.
  now rewrite (getMotors_loop_no_reconnection from_stDeg w (m_motors g) [] [] H).
Qed.

Lemma getMotors_disconnected g w :
  all_disconnected w (m_motors g) = true ->
  getMotors from_stDeg g w
  = (([], mkMotorGroup (map (fun pr => (fst pr, false)) (m_motors g))
                       (m_outputVelocity g)),
     w).
Proof.
  intro H. rewrite getMotors_quiet.
  - unfold all_disconnected in H. rewrite forallb_forall in H.
    do 2 f_equal.
    + induction (m_motors g) as [|pr rest IH]; [reflexivity |].
      cbn [filter]. pose proof (H pr (or_introl eq_refl)) as Hp.
      apply negb_true_iff in Hp. rewrite Hp. apply IH.
      intros x Hx. apply H. now right.
    + f_equal. apply map_ext_in. intros pr Hin.
      pose proof (H pr Hin) as Hp. apply negb_true_iff in Hp. now rewrite Hp.
  - unfold no_reconnection, all_disconnected in *.
    rewrite forallb_forall in *. intros pr Hin.
    rewrite (H pr Hin). apply orb_true_r.
Qed.

(** X15. When no tracked motor is installed (an empty group included), every
    call reports total failure and nothing is asked of the hardware: the five
    commands return INT_MAX, [getAngle] returns INFINITY, [isConnected] and
    [getSize] return 0, [getBrakeModes] returns the empty list, every flag
    becomes disconnected and the world is left exactly as it was. *)
Theorem disconnected_group_total_failure
        (g : MotorGroup) (w : World) (percent velocity a : float) (mode : BrakeMode) :
  all_disconnected w (m_motors g) = true ->
  let g' := mkMotorGroup (map (fun pr => (fst pr, false)) (m_motors g))
                         (m_outputVelocity g) in
  move from_stDeg g percent w = ((INT_MAX, g'), w) /\
  moveVelocity from_stDeg from_rpm g velocity w = ((INT_MAX, g'), w) /\
  brake from_stDeg g w = ((INT_MAX, g'), w) /\
  setBrakeMode from_stDeg g mode w = ((INT_MAX, g'), w) /\
  setAngle from_stDeg from_rpm g a w = ((INT_MAX, g'), w) /\
  getAngle from_stDeg from_rpm g w = ((INFINITY_angle from_stDeg, g'), w) /\
  isConnected from_stDeg g w = ((0, g'), w) /\
  getSize from_stDeg g w = ((0, g'), w) /\
  getBrakeModes from_stDeg g w = (([], g'), w).
Proof.
  intro H. cbv zeta.
  unfold move, moveVelocity, brake, setBrakeMode, setAngle, getAngle,
         isConnected, getSize, getBrakeModes.
  unfold bind. rewrite (getMotors_disconnected g w H).
  repeat split.
Qed.

(** X16. Without a reconnection edge [getAngle] only reads: although it
    calls [getMotors] twice, it sends no command and changes no device. *)
Theorem getAngle_reads_only (g : MotorGroup) (w : World) :
  no_reconnection w (m_motors g) = true ->
  devices (snd (getAngle from_stDeg from_rpm g w)) = devices w /\
  issued (snd (getAngle from_stDeg from_rpm g w)) = issued w.
Proof.
  intro H. unfold getAngle. rewrite bind_run, (getMotors_quiet g w H).
  cbn [fst snd]. rewrite bind_run.
  set (motors := map fst (filter (fun pr => installed (dev w (fst pr))) (m_motors g))).
  set (g1 := mkMotorGroup (map (fun pr => (fst pr, installed (dev w (fst pr))))
                               (m_motors g)) (m_outputVelocity g)).
  destruct (getAngle_loop_spec from_stDeg from_rpm (m_outputVelocity g) motors
              (zero_angle from_stDeg) 0 w) as (_ & D2 & I2).
  set (w2 := snd (getAngle_loop from_stDeg from_rpm (m_outputVelocity g) motors
                    (zero_angle from_stDeg) 0 w)) in *.
  destruct (fst (getAngle_loop from_stDeg from_rpm (m_outputVelocity g) motors
                   (zero_angle from_stDeg) 0 w)) as [s errs].
  destruct (errs =? Z.of_nat (length motors)); [now split |].
  rewrite bind_run. unfold getSize. rewrite bind_run.
  assert (H1 : no_reconnection w2 (m_motors g1) = true).
  { unfold no_reconnection, g1. cbn [m_motors]. rewrite forallb_forall.
    intros pr Hin. apply in_map_iff in Hin as (x & <- & _). cbn [fst snd].
    unfold dev. rewrite D2. apply orb_negb_r. }
  rewrite (getMotors_quiet g1 w2 H1). cbn [fst snd]. rewrite bind_run.
  match goal with |- context [getSize_loop ?l 0 w2] =>
    destruct (getSize_loop_spec l 0 w2) as (_ & D3 & I3) end.
  unfold ret. cbn [fst snd]. split; congruence.
Qed.

End Reads.

(** ** Adding and removing members *)

Section AddRemove.

Variable from_stDeg : float -> float.

Lemma removeMotor_loop_is_filter l port :
  removeMotor_loop l port = filter (fun pr => negb (same_port port pr)) l.
Proof.
  induction l as [|pr rest IH]; cbn [removeMotor_loop filter]; auto.
  destruct (same_port port pr); cbn [negb]; now rewrite IH.
Qed.

Lemma same_port_abs port port' pr :
  Z.abs port' = Z.abs port -> same_port port' pr = same_port port pr.
Proof. unfold same_port. now intros ->. Qed.

(** X17. [removeMotor] erases every pair of the port, whatever its sign, and
    keeps the other pairs in their order: afterwards the port is not
    tracked; removing again changes nothing; and removing [-port] is the same
    as removing [port]. *)
Theorem removeMotor_erases_port (g : MotorGroup) (port : Z) :
  m_motors (removeMotor g port)
  = filter (fun pr => negb (Z.abs (fst pr) =? Z.abs port)) (m_motors g) /\
  existsb (same_port port) (m_motors (removeMotor g port)) = false /\
  removeMotor (removeMotor g port) port = removeMotor g port /\
  removeMotor g (- port) = removeMotor g port.
Proof.
  unfold removeMotor. cbn [m_motors m_outputVelocity].
  rewrite !removeMotor_loop_is_filter.
  split; [reflexivity |]. split; [| split].
  - induction (m_motors g) as [|pr rest IH]; [reflexivity |].
    cbn [filter]. destruct (same_port port pr) eqn:E; cbn [negb existsb]; auto.
    now rewrite E, IH.
  - f_equal. induction (m_motors g) as [|pr rest IH]; [reflexivity |].
    cbn [filter]. destruct (same_port port pr) eqn:E; cbn [negb filter]; auto.
    rewrite E. cbn [negb]. now rewrite IH.
  - f_equal. apply filter_ext. intro pr.
    now rewrite (same_port_abs port (- port) pr (Z.abs_opp port)).
Qed.

(** X18. [removeMotor] of a port that is not tracked is a no-op: the group
    is returned as it was. *)
Theorem removeMotor_absent (g : MotorGroup) (port : Z) :
  existsb (same_port port) (m_motors g) = false ->
  removeMotor g port = g.
Proof.
  intro H. unfold removeMotor. rewrite removeMotor_loop_is_filter.
  destruct g as [motors O]. cbn [m_motors m_outputVelocity] in *. f_equal.
  induction motors as [|pr rest IH]; [reflexivity |].
  cbn [existsb] in H. apply orb_false_iff in H as [Hp Hrest].
  cbn [filter]. rewrite Hp. cbn [negb]. now rewrite IH.
Qed.

(** X19. [addMotor] of a port that is not tracked never returns INT_MAX: it
    runs [configureMotor], returns its result, 0 or 1, and appends the port,
    narrowed to an [int8_t], at the end of the vector, flagged as connected
    exactly when that result is 0.  The member is added also when its
    configuration failed. *)
Theorem addMotor_appends (g : MotorGroup) (port : Z) (w : World) :
  existsb (same_port port) (m_motors g) = false ->
  let r := addMotor from_stDeg g port w in
  fst (fst r) = fst (configureMotor from_stDeg (m_motors g) port w) /\
  (fst (fst r) = 0 \/ fst (fst r) = 1) /\
  snd (fst r)
  = mkMotorGroup (m_motors g ++ [(to_int8 port, fst (fst r) =? 0)])
                 (m_outputVelocity g) /\
  snd r = snd (configureMotor from_stDeg (m_motors g) port w).
Proof.
  intro H. cbv zeta. unfold addMotor. rewrite H, bind_run. cbn [ret fst snd].
  repeat split.
  destruct (configureMotor_spec from_stDeg (m_motors g) port w) as [R _].
  rewrite R. unfold configure_result.
  destruct (fails (dev w (to_int8 port)) OpSetAngle); [now left |].
  destruct (_ && _); [now left | now right].
Qed.

(** X20. Adding a port that is not tracked and that fits an [int8_t], then
    removing it, gives back the group as it was, whether or not the
    configuration of the new member succeeded. *)
Theorem addMotor_then_removeMotor (g : MotorGroup) (port : Z) (w : World) :
  existsb (same_port port) (m_motors g) = false ->
  is_int8 port ->
  removeMotor (snd (fst (addMotor from_stDeg g port w))) port = g.
Proof.
  intros H H8. unfold addMotor. rewrite H, bind_run. cbn [ret fst snd].
  unfold removeMotor. cbn [m_motors m_outputVelocity].
  rewrite removeMotor_loop_is_filter, filter_app, (to_int8_id _ H8).
  cbn [filter]. unfold same_port at 2. cbn [fst]. rewrite Z.eqb_refl.
  cbn [negb]. rewrite app_nil_r.
  destruct g as [motors O]. cbn [m_motors m_outputVelocity] in *. f_equal.
  induction motors as [|pr rest IH]; [reflexivity |].
  cbn [existsb] in H. apply orb_false_iff in H as [Hp Hrest].
  cbn [filter]. rewrite Hp. cbn [negb]. now rewrite IH.
Qed.

(** X21. After [addMotor] of a port that fits an [int8_t], whatever it
    returned, the port is tracked: a further [addMotor] of that port, in
    either direction, is rejected with EEXIST and changes nothing. *)
Theorem addMotor_twice_rejected (g : MotorGroup) (port port' : Z) (w w' : World) :
  is_int8 port ->
  Z.abs port' = Z.abs port ->
  let g1 := snd (fst (addMotor from_stDeg g port w)) in
  addMotor from_stDeg g1 port' w' = ((INT_MAX, g1), set_errno EEXIST w').
Proof.
  intros H8 Habs. cbv zeta.
  set (g1 := snd (fst (addMotor from_stDeg g port w))).
  assert (T : existsb (same_port port') (m_motors g1) = true).
  { rewrite (existsb_same _ (same_port port))
      by (intro pr; now apply same_port_abs).
    subst g1. unfold addMotor.
    destruct (existsb (same_port port) (m_motors g)) eqn:E; [exact E |].
    rewrite bind_run. cbn [ret fst snd m_motors].
    rewrite existsb_app. cbn [existsb]. unfold same_port at 2. cbn [fst].
    rewrite (to_int8_id _ H8), Z.eqb_refl. now rewrite orb_true_r. }
  unfold addMotor at 1. now rewrite T.
Qed.

(** X22. The first member: [addMotor] on a group that tracks nothing sends
    exactly one command, [setAngle] of [0_stDeg] on the new motor, and no
    [setBrakeMode]. *)
Theorem addMotor_first_member (g : MotorGroup) (port : Z) (w : World) :
  m_motors g = [] ->
  issued (snd (addMotor from_stDeg g port w))
  = issued w ++ [CmdSetAngle (to_int8 port) (zero_angle from_stDeg)] /\
  m_motors (snd (fst (addMotor from_stDeg g port w)))
  = [(to_int8 port, fst (fst (addMotor from_stDeg g port w)) =? 0)].
Proof.
  intro H. unfold addMotor. rewrite H. cbn [existsb]. rewrite bind_run.
  cbn [ret fst snd m_motors app]. split; [| reflexivity].
  destruct (configureMotor_run from_stDeg [] port w) as (w2 & _ & I & E).
  rewrite E. unfold Motor.setAngle. rewrite command_issued, I.
  cbn [brake_commands]. now rewrite app_nil_r.
Qed.

End AddRemove.

(** ** Scenarios for the further properties *)

Lemma getMotors_without_reconnection_witness :
  snd (getMotors in_degrees group_12 two_ratios) = two_ratios /\
  fst (fst (getMotors in_degrees group_12 two_ratios)) = [1; 2].
Proof.
  rewrite (getMotors_without_reconnection in_degrees group_12 two_ratios eq_refl).
  split; reflexivity.
Defined.

Lemma getMotors_twice_witness :
  let r1 := getMotors in_degrees (mkMotorGroup tracked_12 (in_rpm 100)) reconnecting in
  fst (getMotors in_degrees (snd (fst r1)) (snd r1)) = fst r1.
Proof.
  apply (getMotors_twice in_degrees (mkMotorGroup tracked_12 (in_rpm 100)) reconnecting).
  vm_compute. discriminate.
Defined.

(** With an empty working set a second call may differ.  Port 5 is
    installed again and port 6, flagged as connected, is gone; port 1 reports
    a brake mode but refuses to have one set.  The first call fails to
    configure port 5, because the flag of port 6 leads its first loop to port
    1, and then clears that flag; the second call configures port 5. *)
Example getMotors_twice_needs_a_member :
  let w := world_of [(1, mkDevice false (DriverOp_eqb OpSetBrakeMode) HOLD RED 0%float);
                     (5, motor_with RED COAST 0%float)] in
  let g := mkMotorGroup [(5, false); (6, true)] (in_rpm 100) in
  let r1 := getMotors in_degrees g w in
  fst (fst r1) = [] /\
  fst (fst (getMotors in_degrees (snd (fst r1)) (snd r1))) = [5].
Proof. cbv zeta. split; vm_compute; reflexivity. Qed.

Lemma disconnected_group_total_failure_witness :
  fst (fst (move in_degrees group_12 1%float (world_of []))) = INT_MAX /\
  fst (fst (getAngle in_degrees in_rpm group_12 (world_of [])))
  = INFINITY_angle in_degrees /\
  snd (getSize in_degrees group_12 (world_of [])) = world_of [].
Proof.
  destruct (disconnected_group_total_failure in_degrees in_rpm group_12 (world_of [])
              1%float 1%float 1%float COAST eq_refl)
    as (A & _ & _ & _ & _ & B & _ & C & _).
  rewrite A, B, C. repeat split.
Defined.

Lemma getAngle_reads_only_witness :
  issued (snd (getAngle in_degrees in_rpm group_12 two_ratios)) = [].
Proof.
  apply (proj2 (getAngle_reads_only in_degrees in_rpm group_12 two_ratios eq_refl)).
Defined.

Lemma removeMotor_absent_witness : removeMotor group_12 7 = group_12.
Proof. apply (removeMotor_absent group_12 7). reflexivity. Defined.

(** Ports 1, 2 and 3 hold motors. *)
Definition three_motors : World :=
  world_of [(1, motor_with RED HOLD 10%float); (2, motor_with GREEN HOLD 40%float);
            (3, motor_with BLUE COAST 0%float)].

Lemma addMotor_appends_witness :
  m_motors (snd (fst (addMotor in_degrees group_12 3 three_motors)))
  = [(1, true); (2, true); (3, true)].
Proof.
  destruct (addMotor_appends in_degrees group_12 3 three_motors eq_refl)
    as (_ & _ & E & _).
  rewrite E. vm_compute. reflexivity.
Defined.

(** A port with nothing plugged in is added all the same, and reported
    as a success: [setAngle] fails on it, which makes [configureMotor]
    return 0. *)
Example addMotor_of_missing_motor :
  fst (addMotor in_degrees group_12 3 two_ratios)
  = (0, mkMotorGroup [(1, true); (2, true); (3, true)] (in_rpm 100)).
Proof. vm_compute. reflexivity. Qed.

Lemma addMotor_then_removeMotor_witness :
  removeMotor (snd (fst (addMotor in_degrees group_12 3 three_motors))) 3 = group_12.
Proof.
  apply (addMotor_then_removeMotor in_degrees group_12 3 three_motors).
  - reflexivity.
  - unfold is_int8. lia.
Defined.

(** A port that does not fit an [int8_t] cannot be removed under the number
    it was added with: 257 is stored as 1, and [removeMotor 257] looks for
    257. *)
Example addMotor_then_removeMotor_257 :
  m_motors (removeMotor
              (snd (fst (addMotor in_degrees (MotorGroup_new [2] (in_rpm 100))
                                  257 three_motors)))
              257)
  = [(2, true); (1, true)].
Proof. vm_compute. reflexivity. Qed.

Lemma addMotor_twice_rejected_witness :
  fst (fst (addMotor in_degrees
              (snd (fst (addMotor in_degrees group_12 3 three_motors)))
              (-3) three_motors))
  = INT_MAX.
Proof.
  rewrite (addMotor_twice_rejected in_degrees group_12 3 (-3) three_motors three_motors).
  - reflexivity.
  - unfold is_int8. lia.
  - reflexivity.
Defined.

Lemma addMotor_first_member_witness :
  issued (snd (addMotor in_degrees (MotorGroup_new [] (in_rpm 100)) 3 three_motors))
  = [CmdSetAngle 3 0%float].
Proof.
  rewrite (proj1 (addMotor_first_member in_degrees (MotorGroup_new [] (in_rpm 100))
                    3 three_motors eq_refl)).
  vm_compute. reflexivity.
Defined.

(** ** The reconnection edge, by what the protocol achieved *)

Section ReconnectionEdge.

Variable from_stDeg : float -> float.

(** C4, amended. On a reconnection edge (the pair of port [p] is flagged as
    disconnected and the motor is installed), [getMotors] runs
    [configureMotor] on [p] before it goes on.  Provided the last step of
    the protocol, [setAngle] on the motor, does not fail, the port joins the
    working set exactly when the protocol succeeded (its first loop met no
    failing [setBrakeMode] and the cartridge of the motor could be read), and
    the flag becomes connected exactly when the port joins: when the protocol
    fails the flag stays disconnected, so that the next call runs it again.
    Nothing is said of a reconnection on which [setAngle] fails. *)
Theorem getMotors_reconnection_retry
        (done rest : list (Z * bool)) (p : Z) (motors : list Z) (w : World) :
  installed (dev w p) = true ->
  fails (dev w (to_int8 p)) OpSetAngle = false ->
  let current := done ++ (p, false) :: rest in
  let succeeded :=
    fst (configure_brake current true w)
    && negb (Cartridge_is_INVALID (Motor.read_cartridge (dev w (to_int8 p)))) in
  let w' := snd (configureMotor from_stDeg current p w) in
  getMotors_loop from_stDeg done ((p, false) :: rest) motors w
  = getMotors_loop from_stDeg (done ++ [(p, succeeded)]) rest
                   (if succeeded then motors ++ [p] else motors) w' /\
  exists rest' motors',
    length rest' = length rest /\
    fst (getMotors_loop from_stDeg done ((p, false) :: rest) motors w)
    = (motors ++ (if succeeded then [p] else []) ++ motors',
       done ++ (p, succeeded) :: rest').
Proof.
  intros Hi Hs. cbv zeta.
  set (current := done ++ (p, false) :: rest).
  assert (E : (fst (configureMotor from_stDeg current p w) =? 0)
              = fst (configure_brake current true w)
                && negb (Cartridge_is_INVALID
                           (Motor.read_cartridge (dev w (to_int8 p))))).
  { destruct (configureMotor_spec from_stDeg current p w) as [R _].
    destruct (configure_brake_spec current true w) as [B _].
    rewrite R, B. unfold configure_result. rewrite Hs.
    now destruct (brake_outcome w current true
                  && negb (Cartridge_is_INVALID
                             (Motor.read_cartridge (dev w (to_int8 p))))). }
  rewrite <- E.
  exact (getMotors_reconnection_edge from_stDeg done rest p motors w Hi).
Qed.

End ReconnectionEdge.

(** Both outcomes: port 2 reconnects with every step succeeding and joins
    the working set; port 2 reconnects with an unreadable cartridge and stays
    flagged as disconnected. *)
Lemma getMotors_reconnection_retry_witness :
  fst (getMotors_loop in_degrees [(1, true)] [(2, false)] [1] reconnecting)
  = ([1; 2], [(1, true); (2, true)]) /\
  fst (getMotors_loop in_degrees [(1, true)] [(2, false)] [1] reconnecting_unreadable)
  = ([1], [(1, true); (2, false)]).
Proof.
  split.
  - destruct (getMotors_reconnection_retry in_degrees [(1, true)] [] 2 [1]
                reconnecting eq_refl eq_refl) as [E _].
    rewrite E. vm_compute. reflexivity.
  - destruct (getMotors_reconnection_retry in_degrees [(1, true)] [] 2 [1]
                reconnecting_unreadable eq_refl eq_refl) as [E _].
    rewrite E. vm_compute. reflexivity.
Defined.
